(** * FHERockPaperScissors: the confidential two-party game contract

    A shallow embedding of the Solidity contract [FHERockPaperScissors]
    (one [Game] record in storage, the entry points [startGame], [joinGame],
    [submitEncryptedChoice], the private [_computeWinnerFHE] and the view
    [getGame]) together with the properties its specification states.

    The contract is written in a small transaction monad: a call either
    returns a new world or reverts, and a reverted call leaves the world
    as it was. *)

From Stdlib Require Import ZArith List String Bool Lia.
Import ListNotations.

Local Open Scope Z_scope.

(** ** Value types of the EVM *)

Definition address := Z.
Definition bytes32 := Z.
Definition bytes := list Byte.byte.

(** [address(0)] *)
Definition address_0 : address := 0.

(** ** Encrypted value types *)

(** Modelled from the spec: the encrypted integer of the homomorphic
    capability, the type [euint32] of the external library
    [@fhevm/solidity] (FHE.sol), which is not part of the sources. An
    encrypted value is a [bytes32] handle. Following the spec's design
    note on a plaintext-shadow implementation, each value carries its
    plaintext next to its handle: the shadow is what a decryption of the
    handle would give. The contract can only wrap and unwrap handles; no
    contract function below reads a shadow. *)
Module euint32.
Record t := mk { unwrap : bytes32; plaintext : Z }.
(** [euint32.wrap(0)]: the uninitialised handle, which the library reads
    as an encryption of 0. *)
Definition wrap_0 : t := mk 0 0.
End euint32.

(** Modelled from the spec: the encrypted boolean [ebool] of the same
    library, a handle with its plaintext shadow. *)
Module ebool.
Record t := mk { unwrap : bytes32; plaintext : bool }.
(** [ebool.wrap(0)]: the uninitialised handle, read as an encryption of
    [false]. *)
Definition wrap_0 : t := mk 0 false.
End ebool.

(** ** The contract's storage *)

Inductive GameStatus := Waiting | InProgress | Completed.

Definition GameStatus_eqb (a b : GameStatus) : bool :=
  match a, b with
  | Waiting, Waiting | InProgress, InProgress | Completed, Completed => true
  | _, _ => false
  end.

Record Game := mkGame {
  player1 : address;
  player2 : address;
  encryptedPlayer1Choice : euint32.t;
  encryptedPlayer2Choice : euint32.t;
  encryptedP1Wins : ebool.t;
  encryptedIsTie : ebool.t;
  winner : address;
  status : GameStatus
}.

Inductive Event :=
| GameStarted (player1 : address)
| GameJoined (player2 : address)
| EncryptedChoiceSubmitted (player : address)
| GameCompleted (winner : address).

(** The world a transaction runs in: the storage variable [game], the
    access-control list the library keeps for this contract (the handles
    [FHE.allowThis] was called on, and the values
    [FHE.makePubliclyDecryptable] was called on, oldest first), and the
    event log (oldest first). *)
Record World := mkWorld {
  game : Game;
  allowedThis : list bytes32;
  publiclyDecryptable : list ebool.t;
  events : list Event
}.

(** Storage of a freshly deployed contract: every slot is zero, so the
    enum field holds its first value. *)
Definition deployed : World :=
  mkWorld (mkGame 0 0 euint32.wrap_0 euint32.wrap_0 ebool.wrap_0 ebool.wrap_0 0 Waiting)
          [] [] [].

(** ** The transaction monad *)

Inductive Revert :=
| Error (reason : string)     (* require(cond, reason) failed *)
| InvalidInput.               (* FHE.fromExternal rejected the ciphertext or its proof *)

Inductive Result (A : Type) :=
| Ok (a : A)
| Reverted (r : Revert).
Arguments Ok {A} a.
Arguments Reverted {A} r.

Definition Tx (A : Type) : Type := World -> Result (A * World).

Definition ret {A} (a : A) : Tx A := fun w => Ok (a, w).

Definition bind {A B} (m : Tx A) (k : A -> Tx B) : Tx B :=
  fun w => match m w with
           | Ok (a, w') => k a w'
           | Reverted r => Reverted r
           end.

Notation "x <- m ;; k" := (bind m (fun x => k))
  (at level 61, m at next level, right associativity).
Notation "m ;; k" := (bind m (fun _ => k))
  (at level 61, right associativity).

Definition require (cond : bool) (reason : string) : Tx unit :=
  fun w => if cond then Ok (tt, w) else Reverted (Error reason).

Definition emit (e : Event) : Tx unit :=
  fun w => Ok (tt, mkWorld (game w) (allowedThis w) (publiclyDecryptable w) (events w ++ [e])).

(** Reading and writing the storage variable [game]. *)
Definition sload : Tx Game := fun w => Ok (game w, w).

Definition sstore (g : Game) : Tx unit :=
  fun w => Ok (tt, mkWorld g (allowedThis w) (publiclyDecryptable w) (events w)).

Definition set_player2 (v : address) (g : Game) : Game :=
  mkGame (player1 g) v (encryptedPlayer1Choice g) (encryptedPlayer2Choice g)
         (encryptedP1Wins g) (encryptedIsTie g) (winner g) (status g).
Definition set_encryptedPlayer1Choice (v : euint32.t) (g : Game) : Game :=
  mkGame (player1 g) (player2 g) v (encryptedPlayer2Choice g)
         (encryptedP1Wins g) (encryptedIsTie g) (winner g) (status g).
Definition set_encryptedPlayer2Choice (v : euint32.t) (g : Game) : Game :=
  mkGame (player1 g) (player2 g) (encryptedPlayer1Choice g) v
         (encryptedP1Wins g) (encryptedIsTie g) (winner g) (status g).
Definition set_encryptedP1Wins (v : ebool.t) (g : Game) : Game :=
  mkGame (player1 g) (player2 g) (encryptedPlayer1Choice g) (encryptedPlayer2Choice g)
         v (encryptedIsTie g) (winner g) (status g).
Definition set_encryptedIsTie (v : ebool.t) (g : Game) : Game :=
  mkGame (player1 g) (player2 g) (encryptedPlayer1Choice g) (encryptedPlayer2Choice g)
         (encryptedP1Wins g) v (winner g) (status g).
Definition set_status (v : GameStatus) (g : Game) : Game :=
  mkGame (player1 g) (player2 g) (encryptedPlayer1Choice g) (encryptedPlayer2Choice g)
         (encryptedP1Wins g) (encryptedIsTie g) (winner g) v.

(** [game.field = v;] *)
Definition assign (set : Game -> Game) : Tx unit :=
  g <- sload ;; sstore (set g).

(** ** The homomorphic capability *)

Inductive FheOp := FheEq | FheAnd | FheOr.

(** Modelled from the spec: what the contract cannot decide by itself is
    left to the host chain, as parameters. [verifyInput sender handle proof]
    is the input verifier: the ciphertext an external handle and its proof
    are bound to for this sender, or [None] when the proof does not check.
    [trivialEncrypt] and [resultHandle] name the handles the coprocessor
    gives to an encrypted constant and to the result of an operation.
    Nothing is assumed about them. *)
Class FhevmHost := {
  verifyInput : address -> bytes32 -> bytes -> option euint32.t;
  trivialEncrypt : Z -> bytes32;
  resultHandle : FheOp -> bytes32 -> bytes32 -> bytes32
}.

(** Modelled from the spec: the operations of the library's [FHE]
    namespace that the contract calls, as the spec's glossary describes
    them: equality, conjunction and disjunction over encrypted values,
    admission of an external input, the access grant and the
    declassification mark. *)
Module FHE.
Section WithHost.
Context `{FhevmHost}.

Definition asEuint32 (value : Z) : euint32.t :=
  euint32.mk (trivialEncrypt value) (value mod 2 ^ 32).

(** Equality, conjunction and disjunction over ciphertexts: the result
    is a new encrypted boolean whose plaintext is the operation on the
    operands' plaintexts. *)
Definition eq (a b : euint32.t) : ebool.t :=
  ebool.mk (resultHandle FheEq (euint32.unwrap a) (euint32.unwrap b))
           (euint32.plaintext a =? euint32.plaintext b).

Definition and (a b : ebool.t) : ebool.t :=
  ebool.mk (resultHandle FheAnd (ebool.unwrap a) (ebool.unwrap b))
           (ebool.plaintext a && ebool.plaintext b).

Definition or (a b : ebool.t) : ebool.t :=
  ebool.mk (resultHandle FheOr (ebool.unwrap a) (ebool.unwrap b))
           (ebool.plaintext a || ebool.plaintext b).

(** [FHE.fromExternal]: reverts unless the input verifies. *)
Definition fromExternal (sender : address) (inputHandle : bytes32) (inputProof : bytes)
  : Tx euint32.t :=
  fun w => match verifyInput sender inputHandle inputProof with
           | Some c => Ok (c, w)
           | None => Reverted InvalidInput
           end.

(** [FHE.allowThis]: a persistent allowance on the handle for this
    contract. *)
Definition allowThis (handle : bytes32) : Tx unit :=
  fun w => Ok (tt, mkWorld (game w) (allowedThis w ++ [handle])
                           (publiclyDecryptable w) (events w)).

(** [FHE.makePubliclyDecryptable]: from now on anyone may ask the
    decryption oracle for the plaintext behind this value. *)
Definition makePubliclyDecryptable (value : ebool.t) : Tx ebool.t :=
  fun w => Ok (value, mkWorld (game w) (allowedThis w)
                              (publiclyDecryptable w ++ [value]) (events w)).

End WithHost.
End FHE.

(** ** The contract *)

Section Contract.
Context `{FhevmHost}.

Definition startGame (sender : address) : Tx unit :=
  g <- sload ;;
  require (player1 g =? address_0) "Game already started" ;;
  sstore (mkGame sender address_0 euint32.wrap_0 euint32.wrap_0
                 ebool.wrap_0 ebool.wrap_0 address_0 Waiting) ;;
  emit (GameStarted sender).

Definition joinGame (sender : address) : Tx unit :=
  g <- sload ;;
  require (negb (player1 g =? address_0)) "Game not started" ;;
  require (player2 g =? address_0) "Game already has two players" ;;
  require (negb (player1 g =? sender)) "Cannot join your own game" ;;
  require (GameStatus_eqb (status g) Waiting) "Game is not waiting for players" ;;
  assign (set_player2 sender) ;;
  assign (set_status InProgress) ;;
  emit (GameJoined sender).

Definition _computeWinnerFHE : Tx unit :=
  let rock := FHE.asEuint32 0 in
  let paper := FHE.asEuint32 1 in
  let scissors := FHE.asEuint32 2 in
  g <- sload ;;
  let p1Choice := encryptedPlayer1Choice g in
  let p2Choice := encryptedPlayer2Choice g in
  let isTie := FHE.eq p1Choice p2Choice in
  assign (set_encryptedIsTie isTie) ;;
  let p1WinsRock := FHE.and (FHE.eq p1Choice rock) (FHE.eq p2Choice scissors) in
  let p1WinsPaper := FHE.and (FHE.eq p1Choice paper) (FHE.eq p2Choice rock) in
  let p1WinsScissors := FHE.and (FHE.eq p1Choice scissors) (FHE.eq p2Choice paper) in
  let p1Wins := FHE.or (FHE.or p1WinsRock p1WinsPaper) p1WinsScissors in
  assign (set_encryptedP1Wins p1Wins) ;;
  g <- sload ;;
  r <- FHE.makePubliclyDecryptable (encryptedP1Wins g) ;;
  assign (set_encryptedP1Wins r) ;;
  g <- sload ;;
  r <- FHE.makePubliclyDecryptable (encryptedIsTie g) ;;
  assign (set_encryptedIsTie r) ;;
  g <- sload ;;
  FHE.allowThis (ebool.unwrap (encryptedP1Wins g)) ;;
  g <- sload ;;
  FHE.allowThis (ebool.unwrap (encryptedIsTie g)) ;;
  assign (set_status Completed).

Definition submitEncryptedChoice (sender : address)
    (inputEuint32 : bytes32) (inputProof : bytes) : Tx unit :=
  g <- sload ;;
  require (negb (player1 g =? address_0)) "Game not started" ;;
  require ((sender =? player1 g) || (sender =? player2 g)) "Not a player in this game" ;;
  require (GameStatus_eqb (status g) Waiting || GameStatus_eqb (status g) InProgress)
          "Game not in valid state" ;;
  encryptedChoice <- FHE.fromExternal sender inputEuint32 inputProof ;;
  (if sender =? player1 g then
     require (euint32.unwrap (encryptedPlayer1Choice g) =? 0)
             "Player 1 already submitted choice" ;;
     assign (set_encryptedPlayer1Choice encryptedChoice) ;;
     g <- sload ;;
     FHE.allowThis (euint32.unwrap (encryptedPlayer1Choice g))
   else
     require (euint32.unwrap (encryptedPlayer2Choice g) =? 0)
             "Player 2 already submitted choice" ;;
     assign (set_encryptedPlayer2Choice encryptedChoice) ;;
     g <- sload ;;
     FHE.allowThis (euint32.unwrap (encryptedPlayer2Choice g))) ;;
  emit (EncryptedChoiceSubmitted sender) ;;
  g <- sload ;;
  let bothChoicesSubmitted :=
    negb (euint32.unwrap (encryptedPlayer1Choice g) =? 0) &&
    negb (euint32.unwrap (encryptedPlayer2Choice g) =? 0) in
  if bothChoicesSubmitted && GameStatus_eqb (status g) InProgress
  then _computeWinnerFHE
  else ret tt.

(** The view [getGame]: six return values. *)
Definition getGame (w : World)
  : address * address * ebool.t * ebool.t * address * GameStatus :=
  let g := game w in
  (player1 g, player2 g, encryptedP1Wins g, encryptedIsTie g, winner g, status g).

End Contract.

(** ** Transactions *)

Inductive Call :=
| StartGame
| JoinGame
| SubmitEncryptedChoice (inputEuint32 : bytes32) (inputProof : bytes).

Section Chain.
Context `{FhevmHost}.

Definition dispatch (sender : address) (c : Call) : Tx unit :=
  match c with
  | StartGame => startGame sender
  | JoinGame => joinGame sender
  | SubmitEncryptedChoice inputEuint32 inputProof =>
      submitEncryptedChoice sender inputEuint32 inputProof
  end.

(** A transaction commits the world its call returns; a reverted call
    changes nothing. *)
Definition transact (tx : address * Call) (w : World) : World :=
  match dispatch (fst tx) (snd tx) w with
  | Ok (_, w') => w'
  | Reverted _ => w
  end.

(** What the sender of a transaction is told: [None] on success, the
    revert reason otherwise. *)
Definition receipt (tx : address * Call) (w : World) : option Revert :=
  match dispatch (fst tx) (snd tx) w with
  | Ok _ => None
  | Reverted r => Some r
  end.

Fixpoint run (txs : list (address * Call)) (w : World) : World :=
  match txs with
  | [] => w
  | tx :: rest => run rest (transact tx w)
  end.

Fixpoint receipts (txs : list (address * Call)) (w : World) : list (option Revert) :=
  match txs with
  | [] => []
  | tx :: rest => receipt tx w :: receipts rest (transact tx w)
  end.

(** The worlds the contract can be in: the deployed one, and any world a
    transaction leads to from a reachable one. The sender of a
    transaction is an account or a contract, never [address(0)]. *)
Inductive reachable : World -> Prop :=
| reach_deployed : reachable deployed
| reach_transact (w : World) (sender : address) (c : Call) :
    reachable w -> sender <> address_0 -> reachable (transact (sender, c) w).

End Chain.

(** ** The specification's vocabulary *)

(** A choice slot counts as set when its handle is not the zero
    (uninitialised) encoding. *)
Definition slot_set (c : euint32.t) : Prop := euint32.unwrap c <> 0.

(** Modelled from the spec: the error taxonomy of its section 7, as a
    reading of the revert reasons. The reason of the status guard of
    [submitEncryptedChoice] and a rejected input have no kind there. *)
Inductive ErrorKind :=
| AlreadyInProgress | NoGame | SelfJoin | SeatTaken | NotAPlayer | DuplicateSubmission.

Definition errorKind (r : Revert) : option ErrorKind :=
  match r with
  | Error reason =>
      if (reason =? "Game already started")%string then Some AlreadyInProgress
      else if (reason =? "Game not started")%string then Some NoGame
      else if (reason =? "Cannot join your own game")%string then Some SelfJoin
      else if (reason =? "Game already has two players")%string then Some SeatTaken
      else if (reason =? "Game is not waiting for players")%string then Some SeatTaken
      else if (reason =? "Not a player in this game")%string then Some NotAPlayer
      else if (reason =? "Player 1 already submitted choice")%string then Some DuplicateSubmission
      else if (reason =? "Player 2 already submitted choice")%string then Some DuplicateSubmission
      else None
  | InvalidInput => None
  end.

(** The three winning pairs for the first player (Rock=0, Paper=1,
    Scissors=2). *)
Definition beats (a b : Z) : Prop :=
  (a = 0 /\ b = 2) \/ (a = 1 /\ b = 0) \/ (a = 2 /\ b = 1).

(** Exactly one of three propositions holds. *)
Definition exactly_one (P Q R : Prop) : Prop :=
  (P /\ ~ Q /\ ~ R) \/ (~ P /\ Q /\ ~ R) \/ (~ P /\ ~ Q /\ R).

(** The query surface as the spec words it: five components. *)
Definition getGame_spec (w : World) : address * address * ebool.t * ebool.t * GameStatus :=
  let g := game w in
  (player1 g, player2 g, encryptedP1Wins g, encryptedIsTie g, status g).

(** The return data of [getGame] as the ABI lays it out: one 32-byte word
    per return value, an enum as its index. *)
Definition abi_GameStatus (s : GameStatus) : Z :=
  match s with Waiting => 0 | InProgress => 1 | Completed => 2 end.

Definition getGame_returndata (w : World) : list Z :=
  let '(p1, p2, p1Wins, isTie, win, st) := getGame w in
  [p1; p2; ebool.unwrap p1Wins; ebool.unwrap isTie; win; abi_GameStatus st].

(** ** What an outside party observes

    Everything in storage, the access-control list and the event log is
    public, but of an encrypted value only the handle is. The plaintexts
    an outsider can obtain are those the decryption oracle releases: the
    ones behind values marked publicly decryptable. *)
Record PublicView := mkView {
  view_player1 : address;
  view_player2 : address;
  view_choice1 : bytes32;
  view_choice2 : bytes32;
  view_p1Wins : bytes32;
  view_isTie : bytes32;
  view_winner : address;
  view_status : GameStatus;
  view_allowedThis : list bytes32;
  view_publiclyDecryptable : list bytes32;
  view_events : list Event
}.

Definition public_view (w : World) : PublicView :=
  let g := game w in
  mkView (player1 g) (player2 g)
         (euint32.unwrap (encryptedPlayer1Choice g)) (euint32.unwrap (encryptedPlayer2Choice g))
         (ebool.unwrap (encryptedP1Wins g)) (ebool.unwrap (encryptedIsTie g))
         (winner g) (status g)
         (allowedThis w) (map ebool.unwrap (publiclyDecryptable w)) (events w).

Definition public_decryptions (w : World) : list (bytes32 * bool) :=
  map (fun v => (ebool.unwrap v, ebool.plaintext v)) (publiclyDecryptable w).

(** Two hosts that differ at most in the plaintexts behind the inputs. *)
Definition same_handles (H1 H2 : FhevmHost) : Prop :=
  (forall sender h p,
      option_map euint32.unwrap (@verifyInput H1 sender h p) =
      option_map euint32.unwrap (@verifyInput H2 sender h p)) /\
  (forall v, @trivialEncrypt H1 v = @trivialEncrypt H2 v) /\
  (forall op a b, @resultHandle H1 op a b = @resultHandle H2 op a b).

(** ** A test host and scenarios

    A deterministic plaintext-shadow host: an input verifies when its
    proof is not empty, keeps its external handle, and has the plaintext
    [plain] assigns to that handle. *)
Definition FheOp_code (op : FheOp) : Z :=
  match op with FheEq => 1 | FheAnd => 2 | FheOr => 3 end.

Definition shadow_host (plain : bytes32 -> Z) : FhevmHost := {|
  verifyInput _ h proof :=
    match proof with
    | [] => None
    | _ :: _ => Some (euint32.mk h (plain h))
    end;
  trivialEncrypt v := 16 + v;
  resultHandle op a b := FheOp_code op + 4 * (a + 1024 * b)
|}.

Definition alice : address := 0xA11CE.
Definition bob : address := 0xB0B.
Definition carol : address := 0xCA401.

Definition proof_ok : bytes := [Byte.x01].

(** Input handles 100 + c carry the choice c. *)
Definition plain_of_handle (h : bytes32) : Z := h - 100.
Definition test_host : FhevmHost := shadow_host plain_of_handle.

Definition submit (c : Z) : Call := SubmitEncryptedChoice (100 + c) proof_ok.

(** start(Alice), join(Bob), submit(Alice, a), submit(Bob, b) *)
Definition play (a b : Z) : list (address * Call) :=
  [(alice, StartGame); (bob, JoinGame); (alice, submit a); (bob, submit b)].

(** ** The outcomes of the entry points

    The worlds a successful call leaves, written out; the closed-form
    lemmas below prove that the entry points produce exactly these. *)

Section Outcomes.
Context `{FhevmHost}.

Definition started (sender : address) (w : World) : World :=
  mkWorld (mkGame sender address_0 euint32.wrap_0 euint32.wrap_0
                  ebool.wrap_0 ebool.wrap_0 address_0 Waiting)
          (allowedThis w) (publiclyDecryptable w) (events w ++ [GameStarted sender]).

Definition joined (sender : address) (w : World) : World :=
  mkWorld (set_status InProgress (set_player2 sender (game w)))
          (allowedThis w) (publiclyDecryptable w) (events w ++ [GameJoined sender]).

(** The two results of the winner evaluation on a game's choices. *)
Definition isTie_of (g : Game) : ebool.t :=
  FHE.eq (encryptedPlayer1Choice g) (encryptedPlayer2Choice g).

Definition p1Wins_of (g : Game) : ebool.t :=
  let a := encryptedPlayer1Choice g in
  let b := encryptedPlayer2Choice g in
  FHE.or (FHE.or (FHE.and (FHE.eq a (FHE.asEuint32 0)) (FHE.eq b (FHE.asEuint32 2)))
                 (FHE.and (FHE.eq a (FHE.asEuint32 1)) (FHE.eq b (FHE.asEuint32 0))))
         (FHE.and (FHE.eq a (FHE.asEuint32 2)) (FHE.eq b (FHE.asEuint32 1))).

Definition resolved (w : World) : World :=
  let g := game w in
  mkWorld (mkGame (player1 g) (player2 g)
                  (encryptedPlayer1Choice g) (encryptedPlayer2Choice g)
                  (p1Wins_of g) (isTie_of g) (winner g) Completed)
          ((allowedThis w ++ [ebool.unwrap (p1Wins_of g)]) ++ [ebool.unwrap (isTie_of g)])
          ((publiclyDecryptable w ++ [p1Wins_of g]) ++ [isTie_of g])
          (events w).

(** The world after a choice went into slot A (resp. B), before the
    completion test. *)
Definition stored1 (c : euint32.t) (sender : address) (w : World) : World :=
  mkWorld (set_encryptedPlayer1Choice c (game w))
          (allowedThis w ++ [euint32.unwrap c]) (publiclyDecryptable w)
          (events w ++ [EncryptedChoiceSubmitted sender]).

Definition stored2 (c : euint32.t) (sender : address) (w : World) : World :=
  mkWorld (set_encryptedPlayer2Choice c (game w))
          (allowedThis w ++ [euint32.unwrap c]) (publiclyDecryptable w)
          (events w ++ [EncryptedChoiceSubmitted sender]).

Definition bothChoicesSubmitted (g : Game) : bool :=
  negb (euint32.unwrap (encryptedPlayer1Choice g) =? 0) &&
  negb (euint32.unwrap (encryptedPlayer2Choice g) =? 0).

Definition settle (w : World) : World :=
  if bothChoicesSubmitted (game w) && GameStatus_eqb (status (game w)) InProgress
  then resolved w else w.

End Outcomes.

(** ** The invariant of the reachable worlds *)

Record Inv (w : World) : Prop := mkInv {
  inv_no_game : player1 (game w) = address_0 -> w = deployed;
  inv_seat2_empty : player2 (game w) = address_0 ->
                    status (game w) = Waiting /\
                    euint32.unwrap (encryptedPlayer2Choice (game w)) = 0;
  inv_waiting : status (game w) = Waiting -> player2 (game w) = address_0;
  inv_distinct : player1 (game w) <> address_0 -> player1 (game w) <> player2 (game w);
  inv_completed : status (game w) = Completed <->
                  slot_set (encryptedPlayer1Choice (game w)) /\
                  slot_set (encryptedPlayer2Choice (game w));
  inv_winner : winner (game w) = address_0;
  inv_public : publiclyDecryptable w =
               match status (game w) with
               | Completed => [encryptedP1Wins (game w); encryptedIsTie (game w)]
               | _ => []
               end
}.

(** A list of transactions whose senders are all non-zero. *)
Definition valid_senders (txs : list (address * Call)) : bool :=
  forallb (fun tx => negb (fst tx =? address_0)) txs.

(** ** Scenario worlds on the test host *)

Definition world_joined : World :=
  @run test_host [(alice, StartGame); (bob, JoinGame)] deployed.

Definition world_one_choice : World :=
  @run test_host [(alice, StartGame); (bob, JoinGame); (alice, submit 0)] deployed.

(** Alice played Rock, Bob played Scissors. *)
Definition world_completed : World := @run test_host (play 0 2) deployed.

(** A second assignment of plaintexts to the input handles: under it the
    game of [play 0 2] is Paper against Rock instead of Rock against
    Scissors. *)
Definition plain_of_handle' (h : bytes32) : Z := if h =? 100 then 1 else 0.
Definition test_host' : FhevmHost := shadow_host plain_of_handle'.

(** ** Further invariants of the reachable worlds *)

Section MoreInvariants.
Context `{FhevmHost}.

(** The result slots and the access-control list, against the status and
    the stored choices. *)
Record Inv_results (w : World) : Prop := mkInv_results {
  invr_unresolved : status (game w) <> Completed ->
                    encryptedP1Wins (game w) = ebool.wrap_0 /\
                    encryptedIsTie (game w) = ebool.wrap_0;
  invr_resolved : status (game w) = Completed ->
                  encryptedP1Wins (game w) = p1Wins_of (game w) /\
                  encryptedIsTie (game w) = isTie_of (game w);
  invr_allowed1 : slot_set (encryptedPlayer1Choice (game w)) ->
                  In (euint32.unwrap (encryptedPlayer1Choice (game w))) (allowedThis w);
  invr_allowed2 : slot_set (encryptedPlayer2Choice (game w)) ->
                  In (euint32.unwrap (encryptedPlayer2Choice (game w))) (allowedThis w);
  invr_allowed_results : status (game w) = Completed ->
                  In (ebool.unwrap (encryptedP1Wins (game w))) (allowedThis w) /\
                  In (ebool.unwrap (encryptedIsTie (game w))) (allowedThis w)
}.

End MoreInvariants.

(** The event log against the seats. *)
Record Inv_events (w : World) : Prop := mkInv_events {
  inve_started : forall a, In (GameStarted a) (events w) -> a = player1 (game w);
  inve_joined : forall a, In (GameJoined a) (events w) ->
                a = player2 (game w) /\ a <> address_0;
  inve_submitted : forall a, In (EncryptedChoiceSubmitted a) (events w) ->
                   (a = player1 (game w) \/ a = player2 (game w)) /\ a <> address_0;
  inve_first : player1 (game w) <> address_0 ->
               exists rest, events w = GameStarted (player1 (game w)) :: rest;
  inve_seat2 : player2 (game w) <> address_0 -> In (GameJoined (player2 (game w))) (events w)
}.

(** ** The front end's reading of the game

    The pure part of the React hook [useFHERockPaperScissorsWagmi] and of
    the component [FHERockPaperScissorsDemo]: what they compute from the
    data of [getGame], the connected account and the decryption results.
    Addresses and handles are the contract's; the hook holds them as
    strings and compares them with [===]. A handle string is never empty,
    so its truth value in a condition is true. *)

Module Hook.

(** [enum GameStatus], a number in the data read from the contract. *)
Module GameStatus.
Definition Waiting : Z := 0.
Definition InProgress : Z := 1.
Definition Completed : Z := 2.
End GameStatus.

(** [ethers.ZeroAddress] and [ethers.ZeroHash] *)
Definition ZeroAddress : address := 0.
Definition ZeroHash : bytes32 := 0.

Record GameResult := mkGameResult {
  player1 : address;
  player2 : address;
  encryptedP1Wins : bytes32;
  encryptedIsTie : bytes32;
  winner : address;
  status : Z
}.

(** What the hook's booleans depend on besides the game: whether the
    contract info, the FHEVM instance and the signer are there, and
    whether a transaction is being processed. *)
Record Env := mkEnv {
  hasContract : bool;
  instance : bool;
  hasSigner : bool;
  isProcessing : bool
}.

(** [readResult.data] decoded: undefined, or the six values of [getGame]. *)
Definition gameData (data : option (Z * Z * Z * Z * Z * Z)) : option GameResult :=
  match data with
  | None => None
  | Some (d0, d1, d2, d3, d4, d5) => Some (mkGameResult d0 d1 d2 d3 d4 d5)
  end.

Definition isSome {A} (o : option A) : bool :=
  match o with Some _ => true | None => false end.

(** [x === address] for an address of the game and the account, which may
    be undefined. *)
Definition is_account (x : Z) (address : option Z) : bool :=
  match address with Some a => x =? a | None => false end.

Definition canStartGame (e : Env) (gameData : option GameResult) (address : option Z) : bool :=
  hasContract e && instance e && hasSigner e && negb (isProcessing e) && isSome address &&
  match gameData with
  | None => true
  | Some gd => (player1 gd =? ZeroAddress) || (status gd =? GameStatus.Completed)
  end.



(** [gameData?.player1 === address]: with no game data the left side is
    undefined, which equals an undefined account. *)
Definition isPlayer1 (gameData : option GameResult) (address : option Z) : bool :=
  match gameData with
  | Some gd => is_account (player1 gd) address
  | None => negb (isSome address)
  end.

Definition isPlayer2 (gameData : option GameResult) (address : option Z) : bool :=
  match gameData with
  | Some gd => is_account (player2 gd) address
  | None => negb (isSome address)
  end.

Definition isPlayer (gameData : option GameResult) (address : option Z) : bool :=
  isPlayer1 gameData address || isPlayer2 gameData address.

Definition hasPlayer1Submitted (gameData : option GameResult) : bool :=
  match gameData with
  | Some gd => (status gd =? GameStatus.Completed) || (status gd =? GameStatus.InProgress)
  | None => false
  end.

Definition hasPlayer2Submitted (gameData : option GameResult) : bool :=
  match gameData with
  | Some gd => status gd =? GameStatus.Completed
  | None => false
  end.

Definition hasCurrentPlayerSubmitted (gameData : option GameResult) (address : option Z) : bool :=
  if negb (isSome gameData) || negb (isPlayer gameData address) then false
  else if isPlayer1 gameData address then hasPlayer1Submitted gameData
  else if isPlayer2 gameData address then hasPlayer2Submitted gameData
  else false.

Definition startGameReason (e : Env) (gameData : option GameResult) (address : option Z)
  : string :=
  if negb (hasContract e) then "Contract not found in deployedContracts.ts"
  else if negb (instance e) then "FHEVM instance not available"
  else if negb (hasSigner e) then "Wallet signer not available"
  else if isProcessing e then "Transaction in progress"
  else if negb (isSome address) then "Wallet not connected"
  else match gameData with
       | Some gd =>
           if negb (player1 gd =? ZeroAddress) && negb (status gd =? GameStatus.Completed)
           then "A game is already in progress"
           else "Ready to start"
       | None => "Ready to start"
       end.

(** The handles the hook asks to decrypt: the result handles that are not
    the zero hash; undefined when there is none. *)
Definition requests (e : Env) (gameData : option GameResult) : option (list bytes32) :=
  if negb (hasContract e) then None
  else match gameData with
       | None => None
       | Some gd =>
           let requests :=
             (if negb (encryptedP1Wins gd =? ZeroHash) then [encryptedP1Wins gd] else []) ++
             (if negb (encryptedIsTie gd =? ZeroHash) then [encryptedIsTie gd] else []) in
           if (0 <? Z.of_nat (List.length requests)) then Some requests else None
       end.

Record DecryptedResults := mkDecryptedResults {
  p1Wins : option bool;
  isTie : option bool
}.

(** [results] is the record of decrypted values by handle, a missing key
    reading as undefined. *)
Definition decryptedResults (gameData : option GameResult)
    (results : option (bytes32 -> option bool)) : option DecryptedResults :=
  match gameData, results with
  | Some gd, Some results =>
      Some (mkDecryptedResults
              (if negb (encryptedP1Wins gd =? ZeroHash) then results (encryptedP1Wins gd)
               else None)
              (if negb (encryptedIsTie gd =? ZeroHash) then results (encryptedIsTie gd)
               else None))
  | _, _ => None
  end.

Definition isDecrypted (gameData : option GameResult)
    (decryptedResults : option DecryptedResults) : bool :=
  match gameData, decryptedResults with
  | Some gd, Some r =>
      (status gd =? GameStatus.Completed) && isSome (p1Wins r) && isSome (isTie r)
  | _, _ => false
  end.

(** The three texts of [getWinnerText], by their template and the address
    they show. *)
Inductive WinnerText :=
| ItsATie
| Player1Wins (player1 : address)
| Player2Wins (player2 : address).

Definition truthy (o : option bool) : bool :=
  match o with Some b => b | None => false end.

Definition getWinnerText (gameData : option GameResult)
    (decryptedResults : option DecryptedResults) : option WinnerText :=
  match gameData, decryptedResults with
  | Some gd, Some r =>
      if truthy (isTie r) then Some ItsATie
      else if truthy (p1Wins r) then Some (Player1Wins (player1 gd))
      else Some (Player2Wins (player2 gd))
  | _, _ => None
  end.


End Hook.

(** The data a successful read of [getGame] gives the hook: the six return
    values, encrypted values as their handles and the status as a number. *)
Definition readGame (w : World) : option (Z * Z * Z * Z * Z * Z) :=
  let '(p1, p2, p1Wins, isTie, win, st) := getGame w in
  Some (p1, p2, ebool.unwrap p1Wins, ebool.unwrap isTie, win, abi_GameStatus st).

(** An environment in which nothing but the game keeps a button disabled. *)
Definition ready : Hook.Env := Hook.mkEnv true true true false.

(** The decryption results once both public results were decrypted: each
    result handle maps to its plaintext. *)
Definition decrypted_by (w : World) (results : bytes32 -> option bool) : Prop :=
  results (ebool.unwrap (encryptedP1Wins (game w))) =
    Some (ebool.plaintext (encryptedP1Wins (game w))) /\
  results (ebool.unwrap (encryptedIsTie (game w))) =
    Some (ebool.plaintext (encryptedIsTie (game w))).

(** * Properties *)

(** ** Unfolding a call *)

Ltac tx_unfold :=
  unfold transact, receipt, dispatch, submitEncryptedChoice, joinGame, startGame,
    _computeWinnerFHE, assign, bind, require, sload, sstore, emit, ret,
    FHE.fromExternal, FHE.allowThis, FHE.makePubliclyDecryptable in *;
  cbn [fst snd] in *.

Ltac tx_case :=
  match goal with
  | |- context [match verifyInput ?s ?h ?p with _ => _ end] =>
      destruct (verifyInput s h p) eqn:?
  | H : context [match verifyInput ?s ?h ?p with _ => _ end] |- _ =>
      destruct (verifyInput s h p) eqn:?
  | |- context [if ?b then _ else _] => destruct b eqn:?
  | H : context [if ?b then _ else _] |- _ => destruct b eqn:?
  end.

Lemma GameStatus_eqb_eq (a b : GameStatus) : GameStatus_eqb a b = true <-> a = b.
Proof. destruct a, b; cbn; split; congruence. Qed.

Lemma GameStatus_eqb_neq (a b : GameStatus) : GameStatus_eqb a b = false <-> a <> b.
Proof. destruct a, b; cbn; split; congruence. Qed.

(** Boolean tests of the source, read as propositions. *)
Ltac to_prop :=
  repeat match goal with
  | H : (_ =? _) = true |- _ => apply Z.eqb_eq in H
  | H : (_ =? _) = false |- _ => apply Z.eqb_neq in H
  | H : GameStatus_eqb _ _ = true |- _ => apply GameStatus_eqb_eq in H
  | H : GameStatus_eqb _ _ = false |- _ => apply GameStatus_eqb_neq in H
  | H : negb _ = true |- _ => apply negb_true_iff in H
  | H : negb _ = false |- _ => apply negb_false_iff in H
  | H : (_ && _) = true |- _ => apply andb_true_iff in H; destruct H
  | H : (_ || _) = false |- _ => apply orb_false_iff in H; destruct H
  end.

(** ** What each entry point does, in closed form *)

Section ClosedForms.
Context `{FhevmHost}.

Lemma startGame_eq (sender : address) (w : World) :
  startGame sender w =
  if player1 (game w) =? address_0 then Ok (tt, started sender w)
  else Reverted (Error "Game already started").
Proof. tx_unfold. destruct (player1 (game w) =? address_0); reflexivity. Qed.

Lemma joinGame_eq (sender : address) (w : World) :
  joinGame sender w =
  if player1 (game w) =? address_0 then Reverted (Error "Game not started")
  else if negb (player2 (game w) =? address_0)
       then Reverted (Error "Game already has two players")
  else if player1 (game w) =? sender then Reverted (Error "Cannot join your own game")
  else if negb (GameStatus_eqb (status (game w)) Waiting)
       then Reverted (Error "Game is not waiting for players")
  else Ok (tt, joined sender w).
Proof.
  tx_unfold.
  destruct (player1 (game w) =? address_0); [reflexivity|].
  destruct (player2 (game w) =? address_0); [|reflexivity].
  destruct (player1 (game w) =? sender); [reflexivity|].
  destruct (GameStatus_eqb (status (game w)) Waiting); reflexivity.
Qed.

Lemma computeWinnerFHE_eq (w : World) : _computeWinnerFHE w = Ok (tt, resolved w).
Proof.
  destruct w as [[p1 p2 c1 c2 r1 r2 wi st] al pd ev]. reflexivity.
Qed.

Lemma submitEncryptedChoice_eq (sender : address) (h : bytes32) (p : bytes) (w : World) :
  submitEncryptedChoice sender h p w =
  let g := game w in
  if player1 g =? address_0 then Reverted (Error "Game not started")
  else if negb ((sender =? player1 g) || (sender =? player2 g))
       then Reverted (Error "Not a player in this game")
  else if negb (GameStatus_eqb (status g) Waiting || GameStatus_eqb (status g) InProgress)
       then Reverted (Error "Game not in valid state")
  else match verifyInput sender h p with
       | None => Reverted InvalidInput
       | Some c =>
           if sender =? player1 g then
             if euint32.unwrap (encryptedPlayer1Choice g) =? 0
             then Ok (tt, settle (stored1 c sender w))
             else Reverted (Error "Player 1 already submitted choice")
           else
             if euint32.unwrap (encryptedPlayer2Choice g) =? 0
             then Ok (tt, settle (stored2 c sender w))
             else Reverted (Error "Player 2 already submitted choice")
       end.
Proof.
  unfold submitEncryptedChoice, bind at 1 2 3 4, sload at 1, require at 1 2 3.
  cbn zeta.
  destruct (player1 (game w) =? address_0); [reflexivity|].
  destruct ((sender =? player1 (game w)) || (sender =? player2 (game w))); [|reflexivity].
  destruct (GameStatus_eqb (status (game w)) Waiting ||
            GameStatus_eqb (status (game w)) InProgress); [|reflexivity].
  cbn [negb].
  unfold bind at 1, FHE.fromExternal.
  destruct (verifyInput sender h p) as [c|]; [|reflexivity].
  destruct (sender =? player1 (game w)).
  - unfold bind at 1 2 3, require at 1.
    destruct (euint32.unwrap (encryptedPlayer1Choice (game w)) =? 0); [|reflexivity].
    unfold settle, bothChoicesSubmitted, stored1.
    cbn -[_computeWinnerFHE resolved].
    match goal with |- context [if ?b then _ else _] => destruct b end;
      [apply computeWinnerFHE_eq | reflexivity].
  - unfold bind at 1 2 3, require at 1.
    destruct (euint32.unwrap (encryptedPlayer2Choice (game w)) =? 0); [|reflexivity].
    unfold settle, bothChoicesSubmitted, stored2.
    cbn -[_computeWinnerFHE resolved].
    match goal with |- context [if ?b then _ else _] => destruct b end;
      [apply computeWinnerFHE_eq | reflexivity].
Qed.

End ClosedForms.

(** ** The invariant holds in every reachable world *)

Section Invariant.
Context `{FhevmHost}.

Lemma Inv_deployed : Inv deployed.
Proof.
  constructor; cbn; unfold slot_set; cbn; try tauto; try congruence.
  split; [congruence | intros [? _]; congruence].
Qed.

Lemma Inv_started (sender : address) :
  sender <> address_0 -> Inv (started sender deployed).
Proof.
  intros Hs. constructor; unfold slot_set, address_0 in *; cbn; try tauto; try congruence.
  split; [congruence | intros [? _]; congruence].
Qed.

Lemma Inv_joined (sender : address) (w : World) :
  Inv w -> player1 (game w) <> address_0 -> player2 (game w) = address_0 ->
  player1 (game w) <> sender -> sender <> address_0 ->
  Inv (joined sender w).
Proof.
  intros HI Hp1 Hp2 Hne Hs.
  destruct (inv_seat2_empty _ HI Hp2) as [Hst Hc2].
  pose proof (inv_winner _ HI) as Hw. pose proof (inv_public _ HI) as Hpub.
  rewrite Hst in Hpub.
  constructor; unfold slot_set, address_0 in *; cbn; try congruence.
  split; [congruence | intros [_ ?]; congruence].
Qed.

Lemma Inv_settle (w : World) :
  player1 (game w) <> address_0 ->
  player2 (game w) <> address_0 ->
  player1 (game w) <> player2 (game w) ->
  status (game w) = InProgress ->
  winner (game w) = address_0 ->
  publiclyDecryptable w = [] ->
  Inv (settle w).
Proof.
  intros Hp1 Hp2 Hd Hst Hw Hpub. unfold settle, bothChoicesSubmitted.
  rewrite Hst. cbn [GameStatus_eqb]. rewrite andb_true_r.
  destruct (negb _ && negb _) eqn:E.
  - apply andb_true_iff in E. destruct E as [E1 E2]. to_prop.
    constructor; unfold slot_set, address_0 in *; cbn; try congruence; try tauto.
    rewrite Hpub. reflexivity.
  - constructor; unfold slot_set, address_0 in *; try congruence; try tauto.
    + rewrite Hst. split; [congruence|]. intros [E1 E2].
      apply Z.eqb_neq in E1, E2. rewrite E1, E2 in E. discriminate.
    + rewrite Hst. exact Hpub.
Qed.

Lemma Inv_transact (w : World) (sender : address) (c : Call) :
  Inv w -> sender <> address_0 -> Inv (transact (sender, c) w).
Proof.
  intros HI Hs. unfold transact, dispatch. cbn [fst snd]. destruct c.
  - rewrite startGame_eq.
    destruct (player1 (game w) =? address_0) eqn:E; [|exact HI].
    apply Z.eqb_eq in E. rewrite (inv_no_game _ HI E). now apply Inv_started.
  - rewrite joinGame_eq.
    destruct (player1 (game w) =? address_0) eqn:E1; [exact HI|].
    destruct (player2 (game w) =? address_0) eqn:E2; [|exact HI].
    destruct (player1 (game w) =? sender) eqn:E3; [exact HI|].
    destruct (GameStatus_eqb (status (game w)) Waiting) eqn:E4; [|exact HI].
    cbn [negb]. to_prop. now apply Inv_joined.
  - rewrite submitEncryptedChoice_eq. cbn zeta.
    destruct (player1 (game w) =? address_0) eqn:E1; [exact HI|].
    destruct ((sender =? player1 (game w)) || (sender =? player2 (game w))) eqn:E2;
      [|exact HI].
    destruct (GameStatus_eqb (status (game w)) Waiting ||
              GameStatus_eqb (status (game w)) InProgress) eqn:E3; [|exact HI].
    cbn [negb].
    destruct (verifyInput sender inputEuint32 inputProof) as [c|]; [|exact HI].
    apply Z.eqb_neq in E1.
    pose proof (inv_distinct _ HI E1) as Hd.
    pose proof (inv_winner _ HI) as Hw.
    pose proof (inv_public _ HI) as Hpub.
    assert (Hnc : status (game w) <> Completed).
    { intros E. rewrite E in E3. discriminate. }
    assert (Hpub' : publiclyDecryptable w = []).
    { rewrite Hpub. destruct (status (game w)); congruence. }
    destruct (sender =? player1 (game w)) eqn:E4.
    + destruct (euint32.unwrap (encryptedPlayer1Choice (game w)) =? 0) eqn:E5;
        [|exact HI].
      to_prop.
      destruct (status (game w)) eqn:Hst; [| |congruence].
      * (* still waiting for the second player: nothing to settle *)
        pose proof (inv_waiting _ HI Hst) as Hp2.
        destruct (inv_seat2_empty _ HI Hp2) as [_ Hc2].
        unfold settle, bothChoicesSubmitted, stored1. cbn.
        rewrite Hst. cbn. rewrite andb_false_r.
        constructor; unfold slot_set, address_0 in *; cbn; try congruence; try tauto.
        -- rewrite Hst. split; [congruence | intros [_ ?]; congruence].
        -- rewrite Hst. exact Hpub'.
      * apply Inv_settle; cbn; try assumption.
        intros Hp2. destruct (inv_seat2_empty _ HI Hp2) as [? _]. congruence.
    + destruct (euint32.unwrap (encryptedPlayer2Choice (game w)) =? 0) eqn:E5;
        [|exact HI].
      cbn in E2. to_prop.
      assert (Hp2 : player2 (game w) <> address_0) by congruence.
      destruct (status (game w)) eqn:Hst; [| |congruence].
      * exfalso. apply Hp2. now apply (inv_waiting _ HI).
      * apply Inv_settle; cbn; assumption.
Qed.

Lemma reachable_Inv (w : World) : reachable w -> Inv w.
Proof.
  induction 1 as [|w sender c _ IH Hs]; [apply Inv_deployed | now apply Inv_transact].
Qed.

Lemma run_reachable (txs : list (address * Call)) (w : World) :
  reachable w -> valid_senders txs = true -> reachable (run txs w).
Proof.
  revert w. induction txs as [|[sender c] rest IH]; intros w Hw Hv; [exact Hw|].
  cbn in Hv. apply andb_true_iff in Hv. destruct Hv as [Hs Hv].
  cbn [run]. apply IH; [|exact Hv].
  apply reach_transact; [exact Hw|]. to_prop. exact Hs.
Qed.

End Invariant.

(** ** Winner evaluation *)

(** The payoff table on plaintexts: of the nine pairs, ties are the three
    equal ones, the first player wins three, and the two never overlap. *)
Lemma rps_table (a b : Z) :
  In a [0; 1; 2] -> In b [0; 1; 2] ->
  let tie := a =? b in
  let aWins := ((a =? 0) && (b =? 2)) || ((a =? 1) && (b =? 0)) || ((a =? 2) && (b =? 1)) in
  (tie = true <-> a = b) /\
  (aWins = true <-> beats a b) /\
  exactly_one (aWins = true) (tie = true) (aWins = false /\ tie = false).
Proof.
  intros Ha Hb. cbn in Ha, Hb.
  destruct Ha as [<-|[<-|[<-|[]]]]; destruct Hb as [<-|[<-|[<-|[]]]]; cbn;
    unfold beats, exactly_one;
    (split; [split; [discriminate || reflexivity | lia || reflexivity]|]);
    (split; [split; [discriminate || (intros _; lia) | lia || reflexivity]|]);
    intuition (discriminate || reflexivity).
Qed.

Section WinnerEvaluation.
Context `{FhevmHost}.

Lemma winner_plaintexts (g : Game) :
  let a := euint32.plaintext (encryptedPlayer1Choice g) in
  let b := euint32.plaintext (encryptedPlayer2Choice g) in
  ebool.plaintext (isTie_of g) = (a =? b) /\
  ebool.plaintext (p1Wins_of g) =
    ((a =? 0) && (b =? 2)) || ((a =? 1) && (b =? 0)) || ((a =? 2) && (b =? 1)).
Proof. split; reflexivity. Qed.

(** A successful submit leaves either the stored choice alone or the
    resolved game. *)
Lemma submit_ok_inv (sender : address) (h : bytes32) (p : bytes) (w w' : World) :
  submitEncryptedChoice sender h p w = Ok (tt, w') ->
  player1 (game w) <> address_0 /\
  status (game w) <> Completed /\
  exists c, verifyInput sender h p = Some c /\
    ((sender = player1 (game w) /\
      euint32.unwrap (encryptedPlayer1Choice (game w)) = 0 /\
      w' = settle (stored1 c sender w)) \/
     (sender <> player1 (game w) /\ sender = player2 (game w) /\
      euint32.unwrap (encryptedPlayer2Choice (game w)) = 0 /\
      w' = settle (stored2 c sender w))).
Proof.
  rewrite submitEncryptedChoice_eq. cbn zeta.
  destruct (player1 (game w) =? address_0) eqn:E1; [discriminate|].
  destruct ((sender =? player1 (game w)) || (sender =? player2 (game w))) eqn:E2;
    [|discriminate].
  destruct (GameStatus_eqb (status (game w)) Waiting ||
            GameStatus_eqb (status (game w)) InProgress) eqn:E3; [|discriminate].
  cbn [negb].
  destruct (verifyInput sender h p) as [c|]; [|discriminate].
  intros Hok. split; [now apply Z.eqb_neq|].
  split; [intros E; rewrite E in E3; discriminate|].
  exists c. split; [reflexivity|].
  destruct (sender =? player1 (game w)) eqn:E4.
  - destruct (euint32.unwrap (encryptedPlayer1Choice (game w)) =? 0) eqn:E5;
      [|discriminate].
    left. to_prop. repeat split; congruence.
  - destruct (euint32.unwrap (encryptedPlayer2Choice (game w)) =? 0) eqn:E5;
      [|discriminate].
    right. cbn in E2. to_prop. repeat split; congruence.
Qed.

Lemma settle_completed (w : World) :
  status (game w) <> Completed ->
  status (game (settle w)) = Completed ->
  settle w = resolved w.
Proof.
  unfold settle. destruct (_ && _); [reflexivity | congruence].
Qed.

(** C1. Whenever a submit completes the game, the stored result booleans
    are the payoff of the two stored choices: for plaintexts a, b in
    {Rock=0, Paper=1, Scissors=2}, tie is true exactly when a = b, aWins
    is true exactly for (Rock,Scissors), (Paper,Rock), (Scissors,Paper),
    and exactly one of aWins, tie, neither holds. *)
Theorem C1_winner_evaluation
    (sender : address) (inputEuint32 : bytes32) (inputProof : bytes) (w w' : World) :
  submitEncryptedChoice sender inputEuint32 inputProof w = Ok (tt, w') ->
  status (game w') = Completed ->
  In (euint32.plaintext (encryptedPlayer1Choice (game w'))) [0; 1; 2] ->
  In (euint32.plaintext (encryptedPlayer2Choice (game w'))) [0; 1; 2] ->
  (ebool.plaintext (encryptedIsTie (game w')) = true <->
     euint32.plaintext (encryptedPlayer1Choice (game w')) =
     euint32.plaintext (encryptedPlayer2Choice (game w'))) /\
  (ebool.plaintext (encryptedP1Wins (game w')) = true <->
     beats (euint32.plaintext (encryptedPlayer1Choice (game w')))
           (euint32.plaintext (encryptedPlayer2Choice (game w')))) /\
  exactly_one (ebool.plaintext (encryptedP1Wins (game w')) = true)
              (ebool.plaintext (encryptedIsTie (game w')) = true)
              (ebool.plaintext (encryptedP1Wins (game w')) = false /\
               ebool.plaintext (encryptedIsTie (game w')) = false).
Proof.
  intros Hok Hdone.
  destruct (submit_ok_inv _ _ _ _ _ Hok) as (_ & Hnc & c & _ & Hw').
  assert (Hres : exists w0, w' = resolved w0) .
  { destruct Hw' as [(_ & _ & ->)|(_ & _ & _ & ->)];
      eexists; apply settle_completed; try exact Hdone; exact Hnc. }
  destruct Hres as [w0 ->]. cbn [resolved game encryptedPlayer1Choice
    encryptedPlayer2Choice encryptedIsTie encryptedP1Wins].
  destruct (winner_plaintexts (game w0)) as [-> ->].
  apply rps_table.
Qed.

End WinnerEvaluation.

Lemma C1_winner_evaluation_witness :
  @submitEncryptedChoice test_host bob 102 proof_ok world_one_choice
    = Ok (tt, world_completed) /\
  status (game world_completed) = Completed /\
  (ebool.plaintext (encryptedIsTie (game world_completed)) = true <->
     euint32.plaintext (encryptedPlayer1Choice (game world_completed)) =
     euint32.plaintext (encryptedPlayer2Choice (game world_completed))) /\
  (ebool.plaintext (encryptedP1Wins (game world_completed)) = true <->
     beats (euint32.plaintext (encryptedPlayer1Choice (game world_completed)))
           (euint32.plaintext (encryptedPlayer2Choice (game world_completed)))) /\
  exactly_one (ebool.plaintext (encryptedP1Wins (game world_completed)) = true)
              (ebool.plaintext (encryptedIsTie (game world_completed)) = true)
              (ebool.plaintext (encryptedP1Wins (game world_completed)) = false /\
               ebool.plaintext (encryptedIsTie (game world_completed)) = false).
Proof.
  assert (Hok : @submitEncryptedChoice test_host bob 102 proof_ok world_one_choice
                = Ok (tt, world_completed)) by (vm_compute; reflexivity).
  assert (Hdone : status (game world_completed) = Completed) by (vm_compute; reflexivity).
  split; [exact Hok|]. split; [exact Hdone|].
  apply (@C1_winner_evaluation test_host bob 102 proof_ok world_one_choice world_completed
           Hok Hdone); vm_compute; tauto.
Defined.

(** ** Lifecycle *)

Section Lifecycle.
Context `{FhevmHost}.

Lemma transact_submit_ok (sender : address) (h : bytes32) (p : bytes) (w w' : World) :
  submitEncryptedChoice sender h p w = Ok (tt, w') ->
  transact (sender, SubmitEncryptedChoice h p) w = w'.
Proof. unfold transact, dispatch. cbn [fst snd]. now intros ->. Qed.

(** C3. In every reachable world the status is Completed if and only if
    both choice slots are set; in particular it is never Completed with
    exactly one slot set, and a submit that leaves both slots set leaves
    the status Completed in the same call. *)
Theorem C3_completed_iff_both_set (w : World) :
  reachable w ->
  (status (game w) = Completed <->
     slot_set (encryptedPlayer1Choice (game w)) /\
     slot_set (encryptedPlayer2Choice (game w))) /\
  (status (game w) = Completed ->
     ~ (slot_set (encryptedPlayer1Choice (game w)) /\
        ~ slot_set (encryptedPlayer2Choice (game w))) /\
     ~ (~ slot_set (encryptedPlayer1Choice (game w)) /\
        slot_set (encryptedPlayer2Choice (game w)))) /\
  (forall sender inputEuint32 inputProof w',
     sender <> address_0 ->
     submitEncryptedChoice sender inputEuint32 inputProof w = Ok (tt, w') ->
     slot_set (encryptedPlayer1Choice (game w')) ->
     slot_set (encryptedPlayer2Choice (game w')) ->
     status (game w') = Completed).
Proof.
  intros Hr. pose proof (inv_completed _ (reachable_Inv _ Hr)) as Hc.
  split; [exact Hc|]. split.
  - intros Hst. apply Hc in Hst. tauto.
  - intros sender h p w' Hs Hok H1 H2.
    assert (Hr' : reachable w').
    { rewrite <- (transact_submit_ok _ _ _ _ _ Hok). now apply reach_transact. }
    apply (inv_completed _ (reachable_Inv _ Hr')). now split.
Qed.

(** Once a game exists, nothing resets it. *)
Lemma startGame_reverts (sender : address) (w : World) :
  player1 (game w) <> address_0 ->
  startGame sender w = Reverted (Error "Game already started").
Proof.
  intros Hp. rewrite startGame_eq.
  apply Z.eqb_neq in Hp. now rewrite Hp.
Qed.

Lemma slot1_set_game_exists (w : World) :
  Inv w -> slot_set (encryptedPlayer1Choice (game w)) -> player1 (game w) <> address_0.
Proof.
  intros HI Hset Hp. rewrite (inv_no_game _ HI Hp) in Hset. now apply Hset.
Qed.

Lemma slot2_set_seat_taken (w : World) :
  Inv w -> slot_set (encryptedPlayer2Choice (game w)) ->
  player2 (game w) <> address_0 /\ player1 (game w) <> address_0 /\
  player1 (game w) <> player2 (game w).
Proof.
  intros HI Hset.
  assert (Hp2 : player2 (game w) <> address_0).
  { intros Hp. destruct (inv_seat2_empty _ HI Hp) as [_ E]. now apply Hset. }
  assert (Hp1 : player1 (game w) <> address_0).
  { intros Hp. rewrite (inv_no_game _ HI Hp) in Hp2. now apply Hp2. }
  repeat split; try assumption. now apply inv_distinct.
Qed.

Lemma settle_choices (w : World) :
  encryptedPlayer1Choice (game (settle w)) = encryptedPlayer1Choice (game w) /\
  encryptedPlayer2Choice (game (settle w)) = encryptedPlayer2Choice (game w).
Proof. unfold settle. destruct (_ && _); split; reflexivity. Qed.

(** What a transaction can do to the two choice slots. *)
Lemma transact_slot1 (tx : address * Call) (w : World) :
  Inv w -> slot_set (encryptedPlayer1Choice (game w)) ->
  encryptedPlayer1Choice (game (transact tx w)) = encryptedPlayer1Choice (game w).
Proof.
  intros HI Hset. pose proof (slot1_set_game_exists _ HI Hset) as Hp1.
  destruct tx as [sender c]. unfold transact, dispatch. cbn [fst snd]. destruct c.
  - now rewrite startGame_reverts.
  - rewrite joinGame_eq. repeat (tx_case; try reflexivity).
  - destruct (submitEncryptedChoice sender inputEuint32 inputProof w)
      as [[[] w']|r] eqn:Hok; [|reflexivity].
    destruct (submit_ok_inv _ _ _ _ _ Hok) as (_ & _ & c & _ & [(_ & E & _)|(_ & _ & _ & ->)]).
    + exfalso. now apply Hset.
    + now rewrite (proj1 (settle_choices _)).
Qed.

Lemma transact_slot2 (tx : address * Call) (w : World) :
  Inv w -> slot_set (encryptedPlayer2Choice (game w)) ->
  encryptedPlayer2Choice (game (transact tx w)) = encryptedPlayer2Choice (game w).
Proof.
  intros HI Hset. destruct (slot2_set_seat_taken _ HI Hset) as (_ & Hp1 & _).
  destruct tx as [sender c]. unfold transact, dispatch. cbn [fst snd]. destruct c.
  - now rewrite startGame_reverts.
  - rewrite joinGame_eq. repeat (tx_case; try reflexivity).
  - destruct (submitEncryptedChoice sender inputEuint32 inputProof w)
      as [[[] w']|r] eqn:Hok; [|reflexivity].
    destruct (submit_ok_inv _ _ _ _ _ Hok) as (_ & _ & c & _ & [(_ & _ & ->)|(_ & _ & E & _)]).
    + now rewrite (proj2 (settle_choices _)).
    + exfalso. now apply Hset.
Qed.

(** A submit from a seat whose slot is set. *)
Lemma resubmit_reverts (sender : address) (h : bytes32) (p : bytes) (w : World) :
  Inv w ->
  (sender = player1 (game w) /\ slot_set (encryptedPlayer1Choice (game w))) \/
  (sender = player2 (game w) /\ slot_set (encryptedPlayer2Choice (game w))) ->
  submitEncryptedChoice sender h p w =
    if GameStatus_eqb (status (game w)) Completed
    then Reverted (Error "Game not in valid state")
    else match verifyInput sender h p with
         | None => Reverted InvalidInput
         | Some _ =>
             if sender =? player1 (game w)
             then Reverted (Error "Player 1 already submitted choice")
             else Reverted (Error "Player 2 already submitted choice")
         end.
Proof.
  intros HI Hseat. rewrite submitEncryptedChoice_eq. cbn zeta.
  assert (Hp1 : player1 (game w) <> address_0).
  { destruct Hseat as [[_ Hs]|[_ Hs]];
      [now apply slot1_set_game_exists | now apply slot2_set_seat_taken]. }
  apply Z.eqb_neq in Hp1. rewrite Hp1.
  assert (Hin : (sender =? player1 (game w)) || (sender =? player2 (game w)) = true).
  { apply orb_true_iff. destruct Hseat as [[-> _]|[-> _]];
      [left | right]; apply Z.eqb_refl. }
  rewrite Hin. cbn [negb].
  destruct (status (game w)) eqn:Hst; cbn [GameStatus_eqb orb negb]; try reflexivity.
  - (* Waiting *)
    destruct (verifyInput sender h p); [|reflexivity].
    destruct Hseat as [[-> Hs]|[-> Hs]].
    + rewrite Z.eqb_refl. apply Z.eqb_neq in Hs. now rewrite Hs.
    + destruct (slot2_set_seat_taken _ HI Hs) as (_ & _ & Hd).
      assert (E : (player2 (game w) =? player1 (game w)) = false)
        by (apply Z.eqb_neq; congruence).
      rewrite E. apply Z.eqb_neq in Hs. now rewrite Hs.
  - (* InProgress *)
    destruct (verifyInput sender h p); [|reflexivity].
    destruct Hseat as [[-> Hs]|[-> Hs]].
    + rewrite Z.eqb_refl. apply Z.eqb_neq in Hs. now rewrite Hs.
    + destruct (slot2_set_seat_taken _ HI Hs) as (_ & _ & Hd).
      assert (E : (player2 (game w) =? player1 (game w)) = false)
        by (apply Z.eqb_neq; congruence).
      rewrite E. apply Z.eqb_neq in Hs. now rewrite Hs.
Qed.

(** The second submit does return: in a game in progress, a verified
    input with a non-zero handle from the player whose slot is still
    unset, the other slot being set, is stored and resolves the game in
    the same call. *)
Lemma second_submit_completes
    (sender : address) (h : bytes32) (p : bytes) (c : euint32.t) (w : World) :
  reachable w ->
  status (game w) = InProgress ->
  verifyInput sender h p = Some c -> slot_set c ->
  (sender = player1 (game w) /\
   ~ slot_set (encryptedPlayer1Choice (game w)) /\
   slot_set (encryptedPlayer2Choice (game w))) \/
  (sender = player2 (game w) /\
   slot_set (encryptedPlayer1Choice (game w)) /\
   ~ slot_set (encryptedPlayer2Choice (game w))) ->
  exists w',
    submitEncryptedChoice sender h p w = Ok (tt, w') /\
    status (game w') = Completed /\
    encryptedIsTie (game w') = isTie_of (game w') /\
    encryptedP1Wins (game w') = p1Wins_of (game w').
Proof.
  intros Hr Hst Hin Hc Hseat. pose proof (reachable_Inv _ Hr) as HI.
  assert (Hp2 : player2 (game w) <> address_0).
  { intros Hp. destruct (inv_seat2_empty _ HI Hp) as [E _]. congruence. }
  assert (Hp1 : player1 (game w) <> address_0).
  { intros Hp. rewrite (inv_no_game _ HI Hp) in Hp2. now apply Hp2. }
  pose proof (inv_distinct _ HI Hp1) as Hd.
  rewrite submitEncryptedChoice_eq. cbn zeta.
  apply Z.eqb_neq in Hp1. rewrite Hp1, Hst, Hin. cbn [GameStatus_eqb orb negb].
  unfold slot_set in *.
  destruct Hseat as [(-> & H1n & H2s)|(-> & H1s & H2n)].
  - rewrite Z.eqb_refl. cbn [orb negb].
    assert (E : euint32.unwrap (encryptedPlayer1Choice (game w)) = 0) by lia.
    rewrite E. cbn [Z.eqb].
    unfold settle, bothChoicesSubmitted, stored1. cbn.
    apply Z.eqb_neq in Hc, H2s. rewrite Hc, H2s, Hst. cbn.
    eexists. repeat split.
  - assert (E0 : (player2 (game w) =? player1 (game w)) = false)
      by (apply Z.eqb_neq; congruence).
    rewrite E0, Z.eqb_refl. cbn [orb negb].
    assert (E : euint32.unwrap (encryptedPlayer2Choice (game w)) = 0) by lia.
    rewrite E. cbn [Z.eqb].
    unfold settle, bothChoicesSubmitted, stored2. cbn.
    apply Z.eqb_neq in Hc, H1s. rewrite Hc, H1s, Hst. cbn.
    eexists. repeat split.
Qed.

End Lifecycle.

(** ** Commitment guard and error handling *)

Section Guards.
Context `{FhevmHost}.

(** C4 (amended). Each choice slot goes from unset to set at most once: in
    a reachable world no transaction changes a slot that is set. A second
    submit from the same seat (player1 for slot A, player2 for slot B)
    always fails and leaves the world unchanged. It fails with
    DuplicateSubmission whenever the game is not Completed and the input
    verifies; on a Completed game it fails at the status guard instead. *)
Theorem C4_single_writer_per_slot (w : World) :
  reachable w ->
  (forall tx, slot_set (encryptedPlayer1Choice (game w)) ->
     encryptedPlayer1Choice (game (transact tx w)) = encryptedPlayer1Choice (game w)) /\
  (forall tx, slot_set (encryptedPlayer2Choice (game w)) ->
     encryptedPlayer2Choice (game (transact tx w)) = encryptedPlayer2Choice (game w)) /\
  (forall sender inputEuint32 inputProof,
     (sender = player1 (game w) /\ slot_set (encryptedPlayer1Choice (game w))) \/
     (sender = player2 (game w) /\ slot_set (encryptedPlayer2Choice (game w))) ->
     exists r,
       submitEncryptedChoice sender inputEuint32 inputProof w = Reverted r /\
       transact (sender, SubmitEncryptedChoice inputEuint32 inputProof) w = w /\
       (status (game w) <> Completed ->
        verifyInput sender inputEuint32 inputProof <> None ->
        errorKind r = Some DuplicateSubmission) /\
       (status (game w) = Completed -> r = Error "Game not in valid state")).
Proof.
  intros Hr. pose proof (reachable_Inv _ Hr) as HI.
  split; [intros tx; now apply transact_slot1|].
  split; [intros tx; now apply transact_slot2|].
  intros sender h p Hseat.
  pose proof (resubmit_reverts sender h p w HI Hseat) as E.
  unfold transact, dispatch. cbn [fst snd]. rewrite E.
  destruct (status (game w)) eqn:Hst; cbn [GameStatus_eqb].
  - destruct (verifyInput sender h p); [destruct (sender =? player1 (game w))|];
      eexists; (split; [reflexivity|]); (split; [reflexivity|]);
      split; try congruence; intros; reflexivity.
  - destruct (verifyInput sender h p); [destruct (sender =? player1 (game w))|];
      eexists; (split; [reflexivity|]); (split; [reflexivity|]);
      split; try congruence; intros; reflexivity.
  - eexists. split; [reflexivity|]. split; [reflexivity|].
    split; [congruence | reflexivity].
Qed.

(** C5 (amended). join(caller) succeeds, setting player2 = caller and
    status = InProgress, if and only if a game exists in status Waiting
    with player2 unset and caller differs from player1. Otherwise it fails
    and leaves the world unchanged, with the first reason that applies in
    this order: NoGame when no game exists, SeatTaken when player2 is
    already set, SelfJoin when caller = player1, SeatTaken when the status
    is not Waiting. *)
Theorem C5_join (sender : address) (w : World) :
  ((exists w', joinGame sender w = Ok (tt, w')) <->
     player1 (game w) <> address_0 /\ status (game w) = Waiting /\
     player2 (game w) = address_0 /\ sender <> player1 (game w)) /\
  (forall w', joinGame sender w = Ok (tt, w') ->
     w' = joined sender w /\
     player2 (game w') = sender /\ status (game w') = InProgress) /\
  (forall r, joinGame sender w = Reverted r ->
     transact (sender, JoinGame) w = w /\
     errorKind r = Some
       (if player1 (game w) =? address_0 then NoGame
        else if negb (player2 (game w) =? address_0) then SeatTaken
        else if sender =? player1 (game w) then SelfJoin
        else SeatTaken)).
Proof.
  unfold transact, dispatch. cbn [fst snd]. rewrite joinGame_eq.
  rewrite (Z.eqb_sym sender).
  destruct (player1 (game w) =? address_0) eqn:E1;
    [|destruct (player2 (game w) =? address_0) eqn:E2;
      [destruct (player1 (game w) =? sender) eqn:E3;
       [|destruct (GameStatus_eqb (status (game w)) Waiting) eqn:E4]|]];
    cbn [negb]; to_prop.
  - split; [split; [intros [? ?]; discriminate | tauto]|].
    split; [discriminate|]. intros r [= <-]. split; reflexivity.
  - split; [split; [intros [? ?]; discriminate | intros (_ & _ & _ & ?); congruence]|].
    split; [discriminate|]. intros r [= <-]. split; reflexivity.
  - split; [split; [intros _; repeat split; congruence | intros _; eexists; reflexivity]|].
    split; [intros w' [= <-]; repeat split; reflexivity | discriminate].
  - split; [split; [intros [? ?]; discriminate | tauto]|].
    split; [discriminate|]. intros r [= <-]. split; reflexivity.
  - split; [split; [intros [? ?]; discriminate | tauto]|].
    split; [discriminate|]. intros r [= <-]. split; reflexivity.
Qed.

(** C6 (amended). In every reachable world whose status is InProgress, or
    whose status is Waiting and in which a game exists (player1 is set),
    start fails with AlreadyInProgress and leaves the world unchanged. *)
Theorem C6_no_double_game (w : World) (sender : address) :
  reachable w ->
  status (game w) = InProgress \/
  (status (game w) = Waiting /\ player1 (game w) <> address_0) ->
  startGame sender w = Reverted (Error "Game already started") /\
  errorKind (Error "Game already started") = Some AlreadyInProgress /\
  transact (sender, StartGame) w = w.
Proof.
  intros Hr Hst. pose proof (reachable_Inv _ Hr) as HI.
  assert (Hp1 : player1 (game w) <> address_0).
  { destruct Hst as [Hst|[_ Hp]]; [|exact Hp].
    intros Hp. rewrite (inv_no_game _ HI Hp) in Hst. discriminate. }
  unfold transact, dispatch. cbn [fst snd].
  rewrite (startGame_reverts sender w Hp1). repeat split.
Qed.

(** C10. The status type has exactly the values Waiting, InProgress and
    Completed; the deployed contract holds status Waiting with player1 the
    zero address; join and submit report their no-game failure exactly when
    player1 is the zero address, and start succeeds exactly when player1 is
    the zero address, whatever the status. *)
Theorem C10_no_game_is_zero_player1 :
  (forall s : GameStatus, s = Waiting \/ s = InProgress \/ s = Completed) /\
  (status (game deployed) = Waiting /\ player1 (game deployed) = address_0) /\
  (forall sender w,
     (exists r, joinGame sender w = Reverted r /\ errorKind r = Some NoGame) <->
     player1 (game w) = address_0) /\
  (forall sender inputEuint32 inputProof w,
     (exists r, submitEncryptedChoice sender inputEuint32 inputProof w = Reverted r /\
                errorKind r = Some NoGame) <->
     player1 (game w) = address_0) /\
  (forall sender w,
     (exists w', startGame sender w = Ok (tt, w')) <-> player1 (game w) = address_0).
Proof.
  split; [intros []; tauto|]. split; [split; reflexivity|]. split; [|split].
  - intros sender w. rewrite joinGame_eq.
    repeat (tx_case; cbn [negb]); to_prop;
      (split; [intros (r & [= <-] & E); cbn in E; congruence
              | intros E; try congruence; eexists; split; reflexivity]).
  - intros sender h p w. rewrite submitEncryptedChoice_eq. cbn zeta.
    repeat (tx_case; cbn [negb]); to_prop;
      (split; [intros (r & E0 & E); try discriminate E0;
               injection E0 as <-; cbn in E; congruence
              | intros E; try congruence; eexists; split; reflexivity]).
  - intros sender w. rewrite startGame_eq.
    destruct (player1 (game w) =? address_0) eqn:E; to_prop.
    + split; [intros _; exact E | intros _; eexists; reflexivity].
    + split; [intros [? ?]; discriminate | congruence].
Qed.

End Guards.

(** ** Events and the query surface *)

Section Observations.
Context `{FhevmHost}.

Lemma settle_events (w : World) : events (settle w) = events w.
Proof. unfold settle. destruct (_ && _); reflexivity. Qed.

Lemma transact_no_GameCompleted (tx : address * Call) (w : World) :
  (forall a, ~ In (GameCompleted a) (events w)) ->
  forall a, ~ In (GameCompleted a) (events (transact tx w)).
Proof.
  intros Hno a. destruct tx as [sender c]. unfold transact, dispatch. cbn [fst snd].
  destruct c.
  - rewrite startGame_eq. tx_case; [|apply Hno].
    cbn. intros Hin. apply in_app_or in Hin. destruct Hin as [Hin|[Hin|[]]];
      [now apply (Hno a) | discriminate].
  - rewrite joinGame_eq. repeat (tx_case; try apply Hno).
    cbn. intros Hin. apply in_app_or in Hin. destruct Hin as [Hin|[Hin|[]]];
      [now apply (Hno a) | discriminate].
  - destruct (submitEncryptedChoice sender inputEuint32 inputProof w)
      as [[[] w']|r] eqn:Hok; [|apply Hno].
    destruct (submit_ok_inv _ _ _ _ _ Hok)
      as (_ & _ & c & _ & [(_ & _ & ->)|(_ & _ & _ & ->)]);
      rewrite settle_events; cbn; intros Hin; apply in_app_or in Hin;
      destruct Hin as [Hin|[Hin|[]]]; solve [now apply (Hno a) | discriminate].
Qed.

Lemma run_no_GameCompleted (txs : list (address * Call)) (w : World) :
  (forall a, ~ In (GameCompleted a) (events w)) ->
  forall a, ~ In (GameCompleted a) (events (run txs w)).
Proof.
  revert w. induction txs as [|tx rest IH]; intros w Hno; [exact Hno|].
  cbn [run]. apply IH. now apply transact_no_GameCompleted.
Qed.

(** C2. start on a Completed game: the contract reverts with "Game already
    started", here after start(Alice), join(Bob) and both submits, and in
    every reachable Completed world; the game is never replaced. *)
Theorem C2_start_after_completed_reverts :
  (status (game world_completed) = Completed /\
   startGame carol world_completed = Reverted (Error "Game already started") /\
   @transact test_host (carol, StartGame) world_completed = world_completed) /\
  (forall w sender,
     reachable w -> status (game w) = Completed ->
     startGame sender w = Reverted (Error "Game already started")).
Proof.
  split; [repeat split|].
  intros w sender Hr Hst. apply startGame_reverts.
  intros Hp. rewrite (inv_no_game _ (reachable_Inv _ Hr) Hp) in Hst. discriminate.
Qed.

(** C8 (amended). The read returns six components: player1, player2,
    encryptedP1Wins, encryptedIsTie, winner and status, that is the five of
    the specification with a winner inserted before the status; the winner
    is never computed, it is the zero address in every reachable world. *)
Theorem C8_getGame_components (w : World) :
  reachable w ->
  getGame w =
    (let '(p1, p2, p1Wins, isTie, st) := getGame_spec w in
     (p1, p2, p1Wins, isTie, address_0, st)) /\
  List.length (getGame_returndata w) = 6%nat.
Proof.
  intros Hr. unfold getGame, getGame_spec. cbn.
  rewrite (inv_winner _ (reachable_Inv _ Hr)). split; reflexivity.
Qed.

(** C9. No run of the contract ever emits GameCompleted: a game that
    completes logs the two EncryptedChoiceSubmitted events and nothing
    after them. *)
Theorem C9_GameCompleted_never_emitted :
  (forall txs a, ~ In (GameCompleted a) (events (run txs deployed))) /\
  (status (game world_completed) = Completed /\
   events world_completed =
     [GameStarted alice; GameJoined bob;
      EncryptedChoiceSubmitted alice; EncryptedChoiceSubmitted bob]).
Proof.
  split; [|split; reflexivity].
  intros txs; apply run_no_GameCompleted. intros a [].
Qed.

End Observations.

(** ** Witnesses and counterexamples on the test host *)

Lemma reachable_world_joined : @reachable test_host world_joined.
Proof. apply run_reachable; [apply reach_deployed | reflexivity]. Qed.

Lemma reachable_world_one_choice : @reachable test_host world_one_choice.
Proof. apply run_reachable; [apply reach_deployed | reflexivity]. Qed.

Lemma reachable_world_completed : @reachable test_host world_completed.
Proof. apply run_reachable; [apply reach_deployed | reflexivity]. Qed.

Lemma C3_completed_iff_both_set_witness :
  @reachable test_host world_completed /\
  (status (game world_completed) = Completed <->
     slot_set (encryptedPlayer1Choice (game world_completed)) /\
     slot_set (encryptedPlayer2Choice (game world_completed))).
Proof.
  split; [exact reachable_world_completed|].
  exact (proj1 (@C3_completed_iff_both_set test_host world_completed
                  reachable_world_completed)).
Defined.

(** The scenarios of the specification, run on the test host. *)
Example scenario_rock_scissors :
  status (game world_completed) = Completed /\
  ebool.plaintext (encryptedP1Wins (game world_completed)) = true /\
  ebool.plaintext (encryptedIsTie (game world_completed)) = false.
Proof. vm_compute. repeat split. Qed.

Example scenario_duplicate_submission :
  @receipts test_host
     [(alice, StartGame); (bob, JoinGame); (alice, submit 0); (alice, submit 1)] deployed
    = [None; None; None; Some (Error "Player 1 already submitted choice")] /\
  status (game (@run test_host
     [(alice, StartGame); (bob, JoinGame); (alice, submit 0); (alice, submit 1)] deployed))
    = InProgress.
Proof. vm_compute. split; reflexivity. Qed.

Example scenario_self_join :
  @receipts test_host [(alice, StartGame); (alice, JoinGame)] deployed
    = [None; Some (Error "Cannot join your own game")].
Proof. vm_compute. reflexivity. Qed.

(** All nine pairs of choices, played through the contract: the status and
    the plaintexts of (aWins, tie) after the second submit. *)
Example nine_pairs_played :
  map (fun ab : Z * Z =>
         let w := @run test_host (play (fst ab) (snd ab)) deployed in
         (status (game w),
          ebool.plaintext (encryptedP1Wins (game w)),
          ebool.plaintext (encryptedIsTie (game w))))
      [(0, 0); (0, 1); (0, 2); (1, 0); (1, 1); (1, 2); (2, 0); (2, 1); (2, 2)]
  = [(Completed, false, true); (Completed, false, false); (Completed, true, false);
     (Completed, true, false); (Completed, false, true); (Completed, false, false);
     (Completed, false, false); (Completed, true, false); (Completed, false, true)].
Proof. vm_compute. reflexivity. Qed.

(** Against C4 as stated: after the game completed, Alice's slot is set
    and her second submit fails, but at the status guard, which is not a
    DuplicateSubmission. *)
Lemma C4_counterexample :
  @reachable test_host world_completed /\
  alice = player1 (game world_completed) /\
  slot_set (encryptedPlayer1Choice (game world_completed)) /\
  @submitEncryptedChoice test_host alice 101 proof_ok world_completed
    = Reverted (Error "Game not in valid state") /\
  errorKind (Error "Game not in valid state") <> Some DuplicateSubmission.
Proof.
  split; [exact reachable_world_completed|].
  split; [reflexivity|]. split; [vm_compute; discriminate|].
  split; [reflexivity | discriminate].
Qed.

Lemma C4_single_writer_per_slot_witness :
  @reachable test_host world_one_choice /\
  exists r,
    @submitEncryptedChoice test_host alice 101 proof_ok world_one_choice = Reverted r /\
    @transact test_host (alice, SubmitEncryptedChoice 101 proof_ok) world_one_choice
      = world_one_choice /\
    (status (game world_one_choice) <> Completed ->
     @verifyInput test_host alice 101 proof_ok <> None ->
     errorKind r = Some DuplicateSubmission) /\
    (status (game world_one_choice) = Completed -> r = Error "Game not in valid state").
Proof.
  split; [exact reachable_world_one_choice|].
  apply (proj2 (proj2 (@C4_single_writer_per_slot test_host world_one_choice
                         reachable_world_one_choice))).
  left. split; [reflexivity | vm_compute; discriminate].
Defined.

(** Against C5 as stated: Alice started the game and Bob joined; when
    Alice now calls join, caller = player1, but the failure is SeatTaken,
    not SelfJoin. *)
Lemma C5_counterexample :
  @reachable test_host world_joined /\
  alice = player1 (game world_joined) /\
  joinGame alice world_joined = Reverted (Error "Game already has two players") /\
  errorKind (Error "Game already has two players") = Some SeatTaken /\
  errorKind (Error "Game already has two players") <> Some SelfJoin.
Proof.
  split; [exact reachable_world_joined|].
  repeat split; discriminate.
Qed.

(** Against C6 as stated: the deployed contract is a reachable world whose
    status is Waiting, and start succeeds there. *)
Lemma C6_counterexample :
  @reachable test_host deployed /\
  status (game deployed) = Waiting /\
  startGame alice deployed = Ok (tt, started alice deployed) /\
  @transact test_host (alice, StartGame) deployed <> deployed.
Proof.
  split; [apply reach_deployed|]. repeat split. discriminate.
Qed.

Lemma C6_no_double_game_witness :
  @reachable test_host world_joined /\
  (status (game world_joined) = InProgress \/
   (status (game world_joined) = Waiting /\ player1 (game world_joined) <> address_0)) /\
  startGame carol world_joined = Reverted (Error "Game already started") /\
  errorKind (Error "Game already started") = Some AlreadyInProgress /\
  @transact test_host (carol, StartGame) world_joined = world_joined.
Proof.
  split; [exact reachable_world_joined|].
  split; [left; reflexivity|].
  apply (@C6_no_double_game test_host world_joined carol reachable_world_joined).
  left; reflexivity.
Defined.

(** Against C8 as stated: the read returns six words, not five. *)
Lemma C8_counterexample :
  getGame_returndata world_completed =
    [alice; bob;
     ebool.unwrap (encryptedP1Wins (game world_completed));
     ebool.unwrap (encryptedIsTie (game world_completed));
     address_0; 2] /\
  List.length (getGame_returndata world_completed) <> 5%nat.
Proof. split; [vm_compute; reflexivity | vm_compute; discriminate]. Qed.

Lemma C8_getGame_components_witness :
  @reachable test_host world_completed /\
  getGame world_completed =
    (let '(p1, p2, p1Wins, isTie, st) := getGame_spec world_completed in
     (p1, p2, p1Wins, isTie, address_0, st)) /\
  List.length (getGame_returndata world_completed) = 6%nat.
Proof.
  split; [exact reachable_world_completed|].
  exact (@C8_getGame_components test_host world_completed reachable_world_completed).
Defined.

(** ** Confidentiality *)

Lemma shadow_host_same_handles (f g : bytes32 -> Z) :
  same_handles (shadow_host f) (shadow_host g).
Proof.
  split; [|split]; try reflexivity.
  intros sender h p. destruct p; reflexivity.
Qed.

Section Confidentiality.
Variables H1 H2 : FhevmHost.
Hypothesis Hsame : same_handles H1 H2.

Lemma same_verifyInput (sender : address) (h : bytes32) (p : bytes) :
  match @verifyInput H1 sender h p, @verifyInput H2 sender h p with
  | Some c1, Some c2 => euint32.unwrap c1 = euint32.unwrap c2
  | None, None => True
  | _, _ => False
  end.
Proof.
  destruct Hsame as [Hv _]. specialize (Hv sender h p).
  destruct (@verifyInput H1 sender h p), (@verifyInput H2 sender h p);
    cbn in Hv; congruence || exact I.
Qed.

Lemma same_result_handles (g1 g2 : Game) :
  euint32.unwrap (encryptedPlayer1Choice g1) = euint32.unwrap (encryptedPlayer1Choice g2) ->
  euint32.unwrap (encryptedPlayer2Choice g1) = euint32.unwrap (encryptedPlayer2Choice g2) ->
  ebool.unwrap (@p1Wins_of H1 g1) = ebool.unwrap (@p1Wins_of H2 g2) /\
  ebool.unwrap (@isTie_of H1 g1) = ebool.unwrap (@isTie_of H2 g2).
Proof.
  intros E1 E2. destruct Hsame as (_ & Ht & Hr).
  unfold p1Wins_of, isTie_of, FHE.or, FHE.and, FHE.eq, FHE.asEuint32. cbn.
  rewrite E1, E2, !Ht, !Hr. split; reflexivity.
Qed.

Lemma public_view_fields (w1 w2 : World) :
  public_view w1 = public_view w2 ->
  (player1 (game w1) = player1 (game w2) /\
   player2 (game w1) = player2 (game w2) /\
   euint32.unwrap (encryptedPlayer1Choice (game w1)) =
     euint32.unwrap (encryptedPlayer1Choice (game w2)) /\
   euint32.unwrap (encryptedPlayer2Choice (game w1)) =
     euint32.unwrap (encryptedPlayer2Choice (game w2)) /\
   status (game w1) = status (game w2)) /\
  (ebool.unwrap (encryptedP1Wins (game w1)) = ebool.unwrap (encryptedP1Wins (game w2)) /\
   ebool.unwrap (encryptedIsTie (game w1)) = ebool.unwrap (encryptedIsTie (game w2)) /\
   winner (game w1) = winner (game w2)) /\
  (allowedThis w1 = allowedThis w2 /\
   map ebool.unwrap (publiclyDecryptable w1) = map ebool.unwrap (publiclyDecryptable w2) /\
   events w1 = events w2).
Proof.
  unfold public_view. intros Hv. injection Hv as E1 E2 E3 E4 E5 E6 E7 E8 E9 E10 E11.
  repeat split; assumption.
Qed.

Lemma public_view_settle (w1 w2 : World) :
  public_view w1 = public_view w2 ->
  public_view (@settle H1 w1) = public_view (@settle H2 w2).
Proof.
  intros Hv.
  destruct (public_view_fields _ _ Hv)
    as ((Ep1 & Ep2 & E1 & E2 & Est) & (_ & _ & Ewin) & (Eal & Epd & Eev)).
  unfold settle, bothChoicesSubmitted. rewrite E1, E2, Est.
  destruct (_ && _); [|exact Hv].
  destruct (same_result_handles _ _ E1 E2) as [Ew Et].
  unfold public_view, resolved.
  cbn [game allowedThis publiclyDecryptable events player1 player2
       encryptedPlayer1Choice encryptedPlayer2Choice encryptedP1Wins encryptedIsTie
       winner status].
  rewrite !map_app. cbn [map].
  rewrite Ep1, Ep2, E1, E2, Ewin, Eal, Epd, Eev, Ew, Et. reflexivity.
Qed.

Lemma public_view_stored1 (c1 c2 : euint32.t) (sender : address) (w1 w2 : World) :
  euint32.unwrap c1 = euint32.unwrap c2 ->
  public_view w1 = public_view w2 ->
  public_view (stored1 c1 sender w1) = public_view (stored1 c2 sender w2).
Proof.
  intros Ec Hv.
  destruct (public_view_fields _ _ Hv)
    as ((Ep1 & Ep2 & E1 & E2 & Est) & (Ew & Et & Ewin) & (Eal & Epd & Eev)).
  unfold public_view, stored1. cbn.
  rewrite Ep1, Ep2, E2, Est, Ew, Et, Ewin, Eal, Epd, Eev, Ec. reflexivity.
Qed.

Lemma public_view_stored2 (c1 c2 : euint32.t) (sender : address) (w1 w2 : World) :
  euint32.unwrap c1 = euint32.unwrap c2 ->
  public_view w1 = public_view w2 ->
  public_view (stored2 c1 sender w1) = public_view (stored2 c2 sender w2).
Proof.
  intros Ec Hv.
  destruct (public_view_fields _ _ Hv)
    as ((Ep1 & Ep2 & E1 & E2 & Est) & (Ew & Et & Ewin) & (Eal & Epd & Eev)).
  unfold public_view, stored2. cbn.
  rewrite Ep1, Ep2, E1, Est, Ew, Et, Ewin, Eal, Epd, Eev, Ec. reflexivity.
Qed.

(** One transaction: the same receipt, and public views that stay equal. *)
Lemma transact_public_view (tx : address * Call) (w1 w2 : World) :
  public_view w1 = public_view w2 ->
  @receipt H1 tx w1 = @receipt H2 tx w2 /\
  public_view (@transact H1 tx w1) = public_view (@transact H2 tx w2).
Proof.
  intros Hv.
  destruct (public_view_fields _ _ Hv)
    as ((Ep1 & Ep2 & E1 & E2 & Est) & (Ew & Et & Ewin) & (Eal & Epd & Eev)).
  destruct tx as [sender c]. unfold receipt, transact, dispatch. cbn [fst snd].
  destruct c.
  - rewrite !startGame_eq, Ep1.
    destruct (player1 (game w2) =? address_0); [|split; [reflexivity | exact Hv]].
    split; [reflexivity|].
    unfold public_view, started. cbn. rewrite Eal, Epd, Eev. reflexivity.
  - rewrite !joinGame_eq, Ep1, Ep2, Est.
    repeat (tx_case; try (split; [reflexivity | exact Hv])).
    split; [reflexivity|].
    unfold public_view, joined. cbn.
    rewrite Ep1, E1, E2, Ew, Et, Ewin, Eal, Epd, Eev. reflexivity.
  - rewrite !submitEncryptedChoice_eq. cbn zeta. rewrite Ep1, Ep2, Est, E1, E2.
    pose proof (same_verifyInput sender inputEuint32 inputProof) as Hin.
    destruct (player1 (game w2) =? address_0); [split; [reflexivity | exact Hv]|].
    destruct (negb _); [split; [reflexivity | exact Hv]|].
    destruct (negb _); [split; [reflexivity | exact Hv]|].
    destruct (@verifyInput H1 sender inputEuint32 inputProof) as [c1|],
             (@verifyInput H2 sender inputEuint32 inputProof) as [c2|];
      try contradiction; [|split; [reflexivity | exact Hv]].
    destruct (sender =? player1 (game w2)).
    + destruct (_ =? 0); [|split; [reflexivity | exact Hv]].
      split; [reflexivity|]. now apply public_view_settle, public_view_stored1.
    + destruct (_ =? 0); [|split; [reflexivity | exact Hv]].
      split; [reflexivity|]. now apply public_view_settle, public_view_stored2.
Qed.

Lemma run_public_view (txs : list (address * Call)) (w1 w2 : World) :
  public_view w1 = public_view w2 ->
  @receipts H1 txs w1 = @receipts H2 txs w2 /\
  public_view (@run H1 txs w1) = public_view (@run H2 txs w2).
Proof.
  revert w1 w2. induction txs as [|tx rest IH]; intros w1 w2 Hv; [now split|].
  destruct (transact_public_view tx w1 w2 Hv) as [Er Hv'].
  destruct (IH _ _ Hv') as [Ers Hv'']. cbn [receipts run].
  split; [now rewrite Er, Ers | exact Hv''].
Qed.

End Confidentiality.

Lemma getGame_returndata_public (w : World) :
  getGame_returndata w =
    [view_player1 (public_view w); view_player2 (public_view w);
     view_p1Wins (public_view w); view_isTie (public_view w);
     view_winner (public_view w); abi_GameStatus (view_status (public_view w))].
Proof. reflexivity. Qed.

Lemma public_decryptions_results (w : World) :
  Inv w ->
  public_decryptions w =
    match status (game w) with
    | Completed =>
        [(ebool.unwrap (encryptedP1Wins (game w)), ebool.plaintext (encryptedP1Wins (game w)));
         (ebool.unwrap (encryptedIsTie (game w)), ebool.plaintext (encryptedIsTie (game w)))]
    | _ => []
    end.
Proof.
  intros HI. unfold public_decryptions. rewrite (inv_public _ HI).
  destruct (status (game w)); reflexivity.
Qed.

(** C7. In every run, the values marked publicly decryptable are none
    before resolution and exactly the two results aWins and tie, each once,
    after it. Two runs of the same transactions on hosts that differ only
    in the plaintexts behind the inputs give the same receipts, the same
    public view of storage, access-control list and events, and the same
    data from the game read; the plaintexts released for decryption are
    the same as soon as aWins and tie are. *)
Theorem C7_only_results_declassified
    (H1 H2 : FhevmHost) (txs : list (address * Call)) :
  valid_senders txs = true ->
  same_handles H1 H2 ->
  publiclyDecryptable (@run H1 txs deployed) =
    match status (game (@run H1 txs deployed)) with
    | Completed => [encryptedP1Wins (game (@run H1 txs deployed));
                    encryptedIsTie (game (@run H1 txs deployed))]
    | _ => []
    end /\
  @receipts H1 txs deployed = @receipts H2 txs deployed /\
  public_view (@run H1 txs deployed) = public_view (@run H2 txs deployed) /\
  getGame_returndata (@run H1 txs deployed) = getGame_returndata (@run H2 txs deployed) /\
  (ebool.plaintext (encryptedP1Wins (game (@run H1 txs deployed))) =
     ebool.plaintext (encryptedP1Wins (game (@run H2 txs deployed))) ->
   ebool.plaintext (encryptedIsTie (game (@run H1 txs deployed))) =
     ebool.plaintext (encryptedIsTie (game (@run H2 txs deployed))) ->
   public_decryptions (@run H1 txs deployed) = public_decryptions (@run H2 txs deployed)).
Proof.
  intros Hvalid Hsame.
  assert (HI1 : Inv (@run H1 txs deployed)).
  { apply (@reachable_Inv H1), run_reachable; [apply reach_deployed | exact Hvalid]. }
  assert (HI2 : Inv (@run H2 txs deployed)).
  { apply (@reachable_Inv H2), run_reachable; [apply reach_deployed | exact Hvalid]. }
  destruct (run_public_view H1 H2 Hsame txs deployed deployed eq_refl) as [Er Hv].
  split; [apply (inv_public _ HI1)|]. split; [exact Er|]. split; [exact Hv|].
  split; [rewrite !getGame_returndata_public, Hv; reflexivity|].
  intros Ew Et. rewrite !public_decryptions_results by assumption.
  assert (Est : status (game (@run H1 txs deployed)) = status (game (@run H2 txs deployed)))
    by apply (f_equal view_status Hv).
  assert (Ehw : ebool.unwrap (encryptedP1Wins (game (@run H1 txs deployed))) =
                ebool.unwrap (encryptedP1Wins (game (@run H2 txs deployed))))
    by apply (f_equal view_p1Wins Hv).
  assert (Eht : ebool.unwrap (encryptedIsTie (game (@run H1 txs deployed))) =
                ebool.unwrap (encryptedIsTie (game (@run H2 txs deployed))))
    by apply (f_equal view_isTie Hv).
  rewrite Est, Ehw, Eht, Ew, Et. reflexivity.
Qed.

(** Rock against Scissors on one host, Paper against Rock on the other:
    different choices, the same observations. *)
Lemma C7_only_results_declassified_witness :
  valid_senders (play 0 2) = true /\
  same_handles test_host test_host' /\
  euint32.plaintext (encryptedPlayer1Choice (game (@run test_host (play 0 2) deployed))) <>
  euint32.plaintext (encryptedPlayer1Choice (game (@run test_host' (play 0 2) deployed))) /\
  @receipts test_host (play 0 2) deployed = @receipts test_host' (play 0 2) deployed /\
  public_view (@run test_host (play 0 2) deployed) =
    public_view (@run test_host' (play 0 2) deployed) /\
  public_decryptions (@run test_host (play 0 2) deployed) =
    public_decryptions (@run test_host' (play 0 2) deployed).
Proof.
  assert (Hvalid : valid_senders (play 0 2) = true) by (vm_compute; reflexivity).
  pose proof (shadow_host_same_handles plain_of_handle plain_of_handle') as Hsame.
  destruct (C7_only_results_declassified test_host test_host' (play 0 2) Hvalid Hsame)
    as (_ & Er & Hv & _ & Hdec).
  split; [exact Hvalid|]. split; [exact Hsame|].
  split; [vm_compute; discriminate|].
  split; [exact Er|]. split; [exact Hv|].
  apply Hdec; vm_compute; reflexivity.
Defined.

(** * Further properties of the contract *)

Section MoreInvariantProofs.
Context `{FhevmHost}.

Lemma settle_cases (w : World) :
  (settle w = resolved w /\ status (game w) = InProgress /\
   slot_set (encryptedPlayer1Choice (game w)) /\
   slot_set (encryptedPlayer2Choice (game w))) \/
  settle w = w.
Proof.
  unfold settle, bothChoicesSubmitted.
  destruct (_ && _) eqn:E; [left | now right].
  apply andb_true_iff in E. destruct E as [E Est].
  apply andb_true_iff in E. destruct E as [E1 E2]. to_prop.
  unfold slot_set. repeat split; assumption.
Qed.

Lemma Inv_results_deployed : Inv_results deployed.
Proof.
  constructor; cbn; unfold slot_set; cbn; intros; try congruence; try tauto.
Qed.

Lemma Inv_results_stored1 (c : euint32.t) (sender : address) (w : World) :
  Inv_results w -> status (game w) <> Completed ->
  Inv_results (settle (stored1 c sender w)).
Proof.
  intros [Hu Hr Ha1 Ha2 Har] Hst. destruct (Hu Hst) as [E1 E2].
  destruct (settle_cases (stored1 c sender w)) as [(-> & _ & _ & H2) | ->].
  - constructor; cbn; intros; try congruence.
    + split; reflexivity.
    + rewrite !in_app_iff. cbn. tauto.
    + rewrite !in_app_iff. left. left. left. now apply Ha2.
    + rewrite !in_app_iff. cbn. tauto.
  - constructor; cbn; intros; try congruence.
    + now split.
    + rewrite in_app_iff. cbn. tauto.
    + rewrite in_app_iff. left. now apply Ha2.
Qed.

Lemma Inv_results_stored2 (c : euint32.t) (sender : address) (w : World) :
  Inv_results w -> status (game w) <> Completed ->
  Inv_results (settle (stored2 c sender w)).
Proof.
  intros [Hu Hr Ha1 Ha2 Har] Hst. destruct (Hu Hst) as [E1 E2].
  destruct (settle_cases (stored2 c sender w)) as [(-> & _ & H1 & _) | ->].
  - constructor; cbn; intros; try congruence.
    + split; reflexivity.
    + rewrite !in_app_iff. left. left. left. now apply Ha1.
    + rewrite !in_app_iff. cbn. tauto.
    + rewrite !in_app_iff. cbn. tauto.
  - constructor; cbn; intros; try congruence.
    + now split.
    + rewrite in_app_iff. left. now apply Ha1.
    + rewrite in_app_iff. cbn. tauto.
Qed.

Lemma Inv_results_transact (tx : address * Call) (w : World) :
  Inv w -> Inv_results w -> Inv_results (transact tx w).
Proof.
  intros HI HR. destruct tx as [sender c]. unfold transact, dispatch. cbn [fst snd].
  destruct c.
  - rewrite startGame_eq.
    destruct (player1 (game w) =? address_0) eqn:E; [|exact HR].
    apply Z.eqb_eq in E. rewrite (inv_no_game _ HI E).
    constructor; cbn; unfold slot_set; cbn; intros; try congruence; try tauto.
  - rewrite joinGame_eq. repeat (tx_case; try exact HR). to_prop.
    destruct HR as [Hu Hr Ha1 Ha2 Har].
    assert (Hst : status (game w) <> Completed) by congruence.
    destruct (Hu Hst) as [E1 E2].
    constructor; cbn; intros; try congruence; try tauto.
  - destruct (submitEncryptedChoice sender inputEuint32 inputProof w)
      as [[[] w']|r] eqn:Hok; [|exact HR].
    destruct (submit_ok_inv _ _ _ _ _ Hok)
      as (_ & Hst & c & _ & [(_ & _ & ->)|(_ & _ & _ & ->)]);
      [now apply Inv_results_stored1 | now apply Inv_results_stored2].
Qed.

Lemma reachable_Inv_results (w : World) : reachable w -> Inv_results w.
Proof.
  induction 1 as [|w sender c Hr IH Hs]; [apply Inv_results_deployed|].
  apply Inv_results_transact; [now apply reachable_Inv | exact IH].
Qed.

Lemma Inv_events_deployed : Inv_events deployed.
Proof. constructor; cbn; intros; tauto || congruence. Qed.

Lemma In_snoc {A} (x y : A) (l : list A) : In x (l ++ [y]) <-> In x l \/ y = x.
Proof. rewrite in_app_iff. cbn. tauto. Qed.

(** Appending an event to the log of a world whose seats are kept. *)
Lemma Inv_events_submitted (sender : address) (w w' : World) :
  Inv_events w -> sender <> address_0 ->
  sender = player1 (game w) \/ sender = player2 (game w) ->
  player1 (game w') = player1 (game w) -> player2 (game w') = player2 (game w) ->
  events w' = events w ++ [EncryptedChoiceSubmitted sender] ->
  Inv_events w'.
Proof.
  intros [Hgs Hgj Hecs Hfirst Hseat] Hs Hp E1 E2 Eev.
  constructor; rewrite ?E1, ?E2, Eev.
  - intros a Hin. apply In_snoc in Hin. destruct Hin as [Hin|Hin]; [|discriminate].
    now apply Hgs.
  - intros a Hin. apply In_snoc in Hin. destruct Hin as [Hin|Hin]; [|discriminate].
    now apply Hgj.
  - intros a Hin. apply In_snoc in Hin. destruct Hin as [Hin|Hin].
    + now apply Hecs.
    + injection Hin as <-. now split.
  - intros Hp1. destruct (Hfirst Hp1) as [rest ->]. eexists. reflexivity.
  - intros Hp2. apply In_snoc. left. now apply Hseat.
Qed.

Lemma Inv_events_transact (w : World) (sender : address) (c : Call) :
  Inv w -> Inv_events w -> sender <> address_0 -> Inv_events (transact (sender, c) w).
Proof.
  intros HI HE Hs. unfold transact, dispatch. cbn [fst snd]. destruct c.
  - rewrite startGame_eq.
    destruct (player1 (game w) =? address_0) eqn:E; [|exact HE].
    apply Z.eqb_eq in E. rewrite (inv_no_game _ HI E).
    constructor; cbn.
    + intros a [Hin|[]]. now injection Hin as <-.
    + intros a [Hin|[]]. discriminate.
    + intros a [Hin|[]]. discriminate.
    + intros _. now exists [].
    + intros Hp. now elim Hp.
  - rewrite joinGame_eq. repeat (tx_case; try exact HE). to_prop.
    destruct HE as [Hgs Hgj Hecs Hfirst Hseat].
    constructor; cbn.
    + intros a Hin. apply In_snoc in Hin. destruct Hin as [Hin|Hin]; [|discriminate].
      now apply Hgs.
    + intros a Hin. apply In_snoc in Hin. destruct Hin as [Hin|Hin].
      * destruct (Hgj _ Hin). congruence.
      * injection Hin as <-. now split.
    + intros a Hin. apply In_snoc in Hin. destruct Hin as [Hin|Hin]; [|discriminate].
      destruct (Hecs _ Hin) as [[?|?] Hne]; [|congruence]. split; [now left | exact Hne].
    + intros Hp1. destruct (Hfirst Hp1) as [rest ->].
      now exists (rest ++ [GameJoined sender]).
    + intros _. apply In_snoc. now right.
  - destruct (submitEncryptedChoice sender inputEuint32 inputProof w)
      as [[[] w']|r] eqn:Hok; [|exact HE].
    destruct (submit_ok_inv _ _ _ _ _ Hok)
      as (_ & _ & c & _ & [(Hp & _ & ->)|(_ & Hp & _ & ->)]).
    + apply (Inv_events_submitted sender w); try assumption; try tauto.
      * destruct (settle_cases (stored1 c sender w)) as [(-> & _) | ->]; reflexivity.
      * destruct (settle_cases (stored1 c sender w)) as [(-> & _) | ->]; reflexivity.
      * now rewrite settle_events.
    + apply (Inv_events_submitted sender w); try assumption; try tauto.
      * destruct (settle_cases (stored2 c sender w)) as [(-> & _) | ->]; reflexivity.
      * destruct (settle_cases (stored2 c sender w)) as [(-> & _) | ->]; reflexivity.
      * now rewrite settle_events.
Qed.

Lemma reachable_Inv_events (w : World) : reachable w -> Inv_events w.
Proof.
  induction 1 as [|w sender c Hr IH Hs]; [apply Inv_events_deployed|].
  apply Inv_events_transact; [now apply reachable_Inv | exact IH | exact Hs].
Qed.

End MoreInvariantProofs.

(** ** Single steps, with their preconditions *)

Section Steps.
Context `{FhevmHost}.

Lemma transact_start (a : address) (w : World) :
  player1 (game w) = address_0 -> transact (a, StartGame) w = started a w.
Proof.
  intros E. unfold transact, dispatch. cbn [fst snd]. rewrite startGame_eq.
  apply Z.eqb_eq in E. now rewrite E.
Qed.

Lemma transact_join (b : address) (w : World) :
  player1 (game w) <> address_0 -> player2 (game w) = address_0 ->
  player1 (game w) <> b -> status (game w) = Waiting ->
  transact (b, JoinGame) w = joined b w.
Proof.
  intros E1 E2 E3 E4. unfold transact, dispatch. cbn [fst snd]. rewrite joinGame_eq.
  apply Z.eqb_neq in E1, E3. apply Z.eqb_eq in E2.
  now rewrite E1, E2, E3, E4.
Qed.

Lemma transact_submit1 (sender : address) (h : bytes32) (p : bytes) (c : euint32.t)
    (w : World) :
  player1 (game w) <> address_0 -> sender = player1 (game w) ->
  status (game w) <> Completed -> verifyInput sender h p = Some c ->
  euint32.unwrap (encryptedPlayer1Choice (game w)) = 0 ->
  transact (sender, SubmitEncryptedChoice h p) w = settle (stored1 c sender w).
Proof.
  intros E1 -> Est Ev Ec. unfold transact, dispatch. cbn [fst snd].
  rewrite submitEncryptedChoice_eq. cbn zeta.
  apply Z.eqb_neq in E1. rewrite E1, Z.eqb_refl, Ev, Ec. cbn [orb negb Z.eqb].
  destruct (status (game w)); [reflexivity | reflexivity | congruence].
Qed.

Lemma transact_submit2 (sender : address) (h : bytes32) (p : bytes) (c : euint32.t)
    (w : World) :
  player1 (game w) <> address_0 -> sender <> player1 (game w) ->
  sender = player2 (game w) ->
  status (game w) <> Completed -> verifyInput sender h p = Some c ->
  euint32.unwrap (encryptedPlayer2Choice (game w)) = 0 ->
  transact (sender, SubmitEncryptedChoice h p) w = settle (stored2 c sender w).
Proof.
  intros E1 En E2 Est Ev Ec. unfold transact, dispatch. cbn [fst snd].
  rewrite submitEncryptedChoice_eq. cbn zeta.
  apply Z.eqb_neq in E1, En. rewrite E1, En, Ev, Ec. rewrite E2 at 1.
  rewrite Z.eqb_refl. cbn [orb negb Z.eqb].
  destruct (status (game w)); [reflexivity | reflexivity | congruence].
Qed.

Lemma settle_resolves (w : World) :
  status (game w) = InProgress ->
  slot_set (encryptedPlayer1Choice (game w)) ->
  slot_set (encryptedPlayer2Choice (game w)) ->
  settle w = resolved w.
Proof.
  unfold settle, bothChoicesSubmitted, slot_set. intros -> E1 E2.
  apply Z.eqb_neq in E1, E2. now rewrite E1, E2.
Qed.

Lemma settle_waits (w : World) :
  euint32.unwrap (encryptedPlayer1Choice (game w)) = 0 \/
  euint32.unwrap (encryptedPlayer2Choice (game w)) = 0 \/
  status (game w) <> InProgress ->
  settle w = w.
Proof.
  unfold settle, bothChoicesSubmitted. intros [E|[E|E]].
  - now rewrite E.
  - rewrite E. cbn. now rewrite andb_false_r.
  - apply GameStatus_eqb_neq in E. rewrite E. now rewrite andb_false_r.
Qed.

End Steps.

(** ** Seats, results, finality *)

Section Game.
Context `{FhevmHost}.

(** X1. In every reachable world the second seat is taken only in a game
    that exists, by an address other than player1's, and the status is
    Waiting exactly when the second seat is empty. *)
Theorem seats_invariant (w : World) :
  reachable w ->
  (player2 (game w) <> address_0 ->
     player1 (game w) <> address_0 /\ player1 (game w) <> player2 (game w)) /\
  (status (game w) = Waiting <-> player2 (game w) = address_0).
Proof.
  intros Hr. pose proof (reachable_Inv _ Hr) as HI. split.
  - intros Hp2.
    assert (Hp1 : player1 (game w) <> address_0).
    { intros Hp. rewrite (inv_no_game _ HI Hp) in Hp2. now apply Hp2. }
    split; [exact Hp1 | now apply inv_distinct].
  - split; [apply (inv_waiting _ HI) | intros Hp; now apply (inv_seat2_empty _ HI)].
Qed.

(** X2. In every reachable world the two result slots are the zero handle
    until the game is Completed, and in a Completed game they are the
    evaluation of the two stored choices: tie is the equality of their
    plaintexts and aWins the disjunction of the three winning pairs. *)
Theorem results_invariant (w : World) :
  reachable w ->
  (status (game w) <> Completed ->
     encryptedP1Wins (game w) = ebool.wrap_0 /\ encryptedIsTie (game w) = ebool.wrap_0) /\
  (status (game w) = Completed ->
     ebool.plaintext (encryptedIsTie (game w)) =
       (euint32.plaintext (encryptedPlayer1Choice (game w)) =?
        euint32.plaintext (encryptedPlayer2Choice (game w))) /\
     ebool.plaintext (encryptedP1Wins (game w)) =
       ((euint32.plaintext (encryptedPlayer1Choice (game w)) =? 0) &&
        (euint32.plaintext (encryptedPlayer2Choice (game w)) =? 2)) ||
       ((euint32.plaintext (encryptedPlayer1Choice (game w)) =? 1) &&
        (euint32.plaintext (encryptedPlayer2Choice (game w)) =? 0)) ||
       ((euint32.plaintext (encryptedPlayer1Choice (game w)) =? 2) &&
        (euint32.plaintext (encryptedPlayer2Choice (game w)) =? 1))).
Proof.
  intros Hr. pose proof (reachable_Inv_results _ Hr) as HR.
  split; [apply (invr_unresolved _ HR)|].
  intros Hst. destruct (invr_resolved _ HR Hst) as [-> ->].
  destruct (winner_plaintexts (game w)) as [E1 E2]. now split.
Qed.

Lemma completed_seats (w : World) :
  Inv w -> status (game w) = Completed ->
  player1 (game w) <> address_0 /\ player2 (game w) <> address_0.
Proof.
  intros HI Hst.
  assert (Hp2 : player2 (game w) <> address_0).
  { intros Hp. destruct (inv_seat2_empty _ HI Hp). congruence. }
  split; [|exact Hp2].
  intros Hp. rewrite (inv_no_game _ HI Hp) in Hst. discriminate.
Qed.

(** X3. Completed is final: in a reachable Completed world every
    transaction, from any sender, reverts and leaves the world as it is. *)
Theorem completed_is_final (w : World) (tx : address * Call) :
  reachable w -> status (game w) = Completed ->
  receipt tx w <> None /\ transact tx w = w.
Proof.
  intros Hr Hst. destruct (completed_seats w (reachable_Inv _ Hr) Hst) as [Hp1 Hp2].
  destruct tx as [sender c]. unfold receipt, transact, dispatch. cbn [fst snd].
  apply Z.eqb_neq in Hp1, Hp2. destruct c.
  - rewrite startGame_eq, Hp1. split; [discriminate | reflexivity].
  - rewrite joinGame_eq, Hp1, Hp2. split; [discriminate | reflexivity].
  - rewrite submitEncryptedChoice_eq. cbn zeta. rewrite Hp1, Hst. cbn.
    destruct (_ || _); cbn; split; discriminate || reflexivity.
Qed.

(** X4. A seat that is taken is never given to anyone else: no
    transaction changes player1 once a game exists, nor player2 once it
    is set. *)
Theorem seats_are_kept (w : World) (tx : address * Call) :
  reachable w ->
  (player1 (game w) <> address_0 -> player1 (game (transact tx w)) = player1 (game w)) /\
  (player2 (game w) <> address_0 -> player2 (game (transact tx w)) = player2 (game w)).
Proof.
  intros Hr. pose proof (reachable_Inv _ Hr) as HI.
  assert (Hboth : player2 (game w) <> address_0 -> player1 (game w) <> address_0).
  { intros Hp2 Hp. rewrite (inv_no_game _ HI Hp) in Hp2. now apply Hp2. }
  destruct tx as [sender c]. unfold transact, dispatch. cbn [fst snd]. destruct c.
  - split; intros Hp; rewrite startGame_reverts; auto.
  - rewrite joinGame_eq. split; intros Hp; repeat (tx_case; try reflexivity).
    to_prop. congruence.
  - destruct (submitEncryptedChoice sender inputEuint32 inputProof w)
      as [[[] w']|r] eqn:Hok; [|split; reflexivity].
    destruct (submit_ok_inv _ _ _ _ _ Hok)
      as (_ & _ & c & _ & [(_ & _ & ->)|(_ & _ & _ & ->)]).
    + destruct (settle_cases (stored1 c sender w)) as [(-> & _) | ->]; split; reflexivity.
    + destruct (settle_cases (stored2 c sender w)) as [(-> & _) | ->]; split; reflexivity.
Qed.

(** X5. submit succeeds exactly when a game exists, the sender holds a
    seat, the status is not Completed, the input verifies and the
    sender's own slot is unset (slot A for player1, slot B otherwise). When
    it fails the world is unchanged and the reason is the first that
    applies of: no game, not a player, not in a valid state, rejected
    input, already submitted. *)
Theorem submit_outcome (sender : address) (inputEuint32 : bytes32) (inputProof : bytes)
    (w : World) :
  ((exists w', submitEncryptedChoice sender inputEuint32 inputProof w = Ok (tt, w')) <->
     player1 (game w) <> address_0 /\
     (sender = player1 (game w) \/ sender = player2 (game w)) /\
     status (game w) <> Completed /\
     verifyInput sender inputEuint32 inputProof <> None /\
     (if sender =? player1 (game w)
      then euint32.unwrap (encryptedPlayer1Choice (game w)) = 0
      else euint32.unwrap (encryptedPlayer2Choice (game w)) = 0)) /\
  (forall r, submitEncryptedChoice sender inputEuint32 inputProof w = Reverted r ->
     transact (sender, SubmitEncryptedChoice inputEuint32 inputProof) w = w /\
     r = (if player1 (game w) =? address_0 then Error "Game not started"
          else if negb ((sender =? player1 (game w)) || (sender =? player2 (game w)))
               then Error "Not a player in this game"
          else if GameStatus_eqb (status (game w)) Completed
               then Error "Game not in valid state"
          else match verifyInput sender inputEuint32 inputProof with
               | None => InvalidInput
               | Some _ =>
                   if sender =? player1 (game w)
                   then Error "Player 1 already submitted choice"
                   else Error "Player 2 already submitted choice"
               end)).
Proof.
  unfold transact, dispatch. cbn [fst snd]. rewrite submitEncryptedChoice_eq. cbn zeta.
  destruct (player1 (game w) =? address_0) eqn:E1.
  { to_prop. split; [split; [intros [? ?]; discriminate | tauto]|].
    intros r [= <-]. now split. }
  destruct ((sender =? player1 (game w)) || (sender =? player2 (game w))) eqn:E2; cbn [negb].
  2:{ to_prop. split; [split; [intros [? ?]; discriminate | tauto]|].
      intros r [= <-]. now split. }
  assert (Hseat : sender = player1 (game w) \/ sender = player2 (game w)).
  { apply orb_true_iff in E2. destruct E2 as [E|E]; apply Z.eqb_eq in E; tauto. }
  destruct (status (game w)) eqn:Est; cbn [GameStatus_eqb orb negb].
  3:{ split; [split; [intros [? ?]; discriminate | intros (_ & _ & ? & _); congruence]|].
      intros r [= <-]. now split. }
  all: destruct (verifyInput sender inputEuint32 inputProof) as [c|] eqn:Ev;
    [|split; [split; [intros [? ?]; discriminate | intros (_ & _ & _ & ? & _); congruence]|];
      intros r [= <-]; now split].
  all: to_prop; destruct (sender =? player1 (game w)) eqn:E4;
    match goal with |- context [if ?b then Ok _ else _] => destruct b eqn:E5 end; to_prop.
  all: split;
    [split; [intros [? ?]; try discriminate; repeat split; congruence
            | intros (_ & _ & _ & _ & ?); try congruence; eexists; reflexivity]
    | intros r Hr; try discriminate; injection Hr as <-; now split].
Qed.

End Game.

(** ** Order of the two submissions, allowances, events *)

Section Composition.
Context `{FhevmHost}.

(** X6. The order of the two submissions does not matter, nor whether
    player1 commits before the second player joins: with verified inputs
    of non-zero handles, the three runs end in the same game record, which
    is Completed and holds player1's input in slot A and player2's in
    slot B. *)
Theorem submission_order_irrelevant
    (a b : address) (ha hb : bytes32) (pa pb : bytes) (ca cb : euint32.t) :
  a <> address_0 -> b <> address_0 -> a <> b ->
  verifyInput a ha pa = Some ca -> verifyInput b hb pb = Some cb ->
  slot_set ca -> slot_set cb ->
  game (run [(a, StartGame); (b, JoinGame);
             (a, SubmitEncryptedChoice ha pa); (b, SubmitEncryptedChoice hb pb)] deployed)
    = mkGame a b ca cb
             (p1Wins_of (mkGame a b ca cb ebool.wrap_0 ebool.wrap_0 address_0 InProgress))
             (FHE.eq ca cb) address_0 Completed /\
  game (run [(a, StartGame); (b, JoinGame);
             (b, SubmitEncryptedChoice hb pb); (a, SubmitEncryptedChoice ha pa)] deployed)
    = game (run [(a, StartGame); (b, JoinGame);
                 (a, SubmitEncryptedChoice ha pa); (b, SubmitEncryptedChoice hb pb)] deployed) /\
  game (run [(a, StartGame); (a, SubmitEncryptedChoice ha pa);
             (b, JoinGame); (b, SubmitEncryptedChoice hb pb)] deployed)
    = game (run [(a, StartGame); (b, JoinGame);
                 (a, SubmitEncryptedChoice ha pa); (b, SubmitEncryptedChoice hb pb)] deployed).
Proof.
  intros Ha Hb Hab Eva Evb Hca Hcb. unfold slot_set in Hca, Hcb.
  assert (Hba : b <> a) by congruence.
  assert (E1 : run [(a, StartGame); (b, JoinGame);
                    (a, SubmitEncryptedChoice ha pa); (b, SubmitEncryptedChoice hb pb)] deployed
               = resolved (stored2 cb b (stored1 ca a (joined b (started a deployed))))).
  { cbn [run]. rewrite (transact_start a deployed eq_refl).
    rewrite transact_join by (cbn; congruence).
    rewrite (transact_submit1 a ha pa ca) by (cbn; congruence).
    rewrite settle_waits by (cbn; tauto).
    rewrite (transact_submit2 b hb pb cb) by (cbn; congruence).
    now rewrite settle_resolves by (cbn; assumption || reflexivity). }
  assert (E2 : run [(a, StartGame); (b, JoinGame);
                    (b, SubmitEncryptedChoice hb pb); (a, SubmitEncryptedChoice ha pa)] deployed
               = resolved (stored1 ca a (stored2 cb b (joined b (started a deployed))))).
  { cbn [run]. rewrite (transact_start a deployed eq_refl).
    rewrite transact_join by (cbn; congruence).
    rewrite (transact_submit2 b hb pb cb) by (cbn; congruence).
    rewrite settle_waits by (cbn; tauto).
    rewrite (transact_submit1 a ha pa ca) by (cbn; congruence).
    now rewrite settle_resolves by (cbn; assumption || reflexivity). }
  assert (E3 : run [(a, StartGame); (a, SubmitEncryptedChoice ha pa);
                    (b, JoinGame); (b, SubmitEncryptedChoice hb pb)] deployed
               = resolved (stored2 cb b (joined b (stored1 ca a (started a deployed))))).
  { cbn [run]. rewrite (transact_start a deployed eq_refl).
    rewrite (transact_submit1 a ha pa ca) by (cbn; congruence).
    rewrite settle_waits by (cbn; tauto).
    rewrite transact_join by (cbn; congruence).
    rewrite (transact_submit2 b hb pb cb) by (cbn; congruence).
    now rewrite settle_resolves by (cbn; assumption || reflexivity). }
  rewrite E1, E2, E3. repeat split.
Qed.

(** X7. The contract holds a persistent allowance on every ciphertext it
    keeps: in a reachable world the handle of each set choice slot, and in
    a Completed game the handles of both results, are in the list
    [FHE.allowThis] was called on. *)
Theorem stored_ciphertexts_are_allowed (w : World) :
  reachable w ->
  (slot_set (encryptedPlayer1Choice (game w)) ->
     In (euint32.unwrap (encryptedPlayer1Choice (game w))) (allowedThis w)) /\
  (slot_set (encryptedPlayer2Choice (game w)) ->
     In (euint32.unwrap (encryptedPlayer2Choice (game w))) (allowedThis w)) /\
  (status (game w) = Completed ->
     In (ebool.unwrap (encryptedP1Wins (game w))) (allowedThis w) /\
     In (ebool.unwrap (encryptedIsTie (game w))) (allowedThis w)).
Proof.
  intros Hr. pose proof (reachable_Inv_results _ Hr) as HR.
  split; [apply (invr_allowed1 _ HR)|].
  split; [apply (invr_allowed2 _ HR) | apply (invr_allowed_results _ HR)].
Qed.

(** X8. The event log only ever names the players of the game: in a
    reachable world every GameStarted names player1 and is the first
    event once a game exists, every GameJoined names player2 and is there
    once the seat is taken, and every EncryptedChoiceSubmitted names
    player1 or player2. *)
Theorem events_name_the_players (w : World) :
  reachable w ->
  (forall a, In (GameStarted a) (events w) -> a = player1 (game w)) /\
  (forall a, In (GameJoined a) (events w) -> a = player2 (game w)) /\
  (forall a, In (EncryptedChoiceSubmitted a) (events w) ->
     a = player1 (game w) \/ a = player2 (game w)) /\
  (player1 (game w) <> address_0 ->
     exists rest, events w = GameStarted (player1 (game w)) :: rest) /\
  (player2 (game w) <> address_0 -> In (GameJoined (player2 (game w))) (events w)).
Proof.
  intros Hr. destruct (reachable_Inv_events _ Hr) as [Hgs Hgj Hecs Hfirst Hseat].
  split; [exact Hgs|]. split; [intros a Hin; apply (Hgj a Hin)|].
  split; [intros a Hin; apply (Hecs a Hin)|]. now split.
Qed.

End Composition.

(** * The front end against the contract *)


Lemma gameData_readGame (w : World) :
  Hook.gameData (readGame w) =
  Some (Hook.mkGameResult (player1 (game w)) (player2 (game w))
          (ebool.unwrap (encryptedP1Wins (game w))) (ebool.unwrap (encryptedIsTie (game w)))
          (winner (game w)) (abi_GameStatus (status (game w)))).
Proof. reflexivity. Qed.

(** X9. The tooltip of the start button says "Ready to start" exactly when
    the button is enabled. *)
Theorem startGameReason_ready_iff_canStartGame
    (e : Hook.Env) (gameData : option Hook.GameResult) (address : option Z) :
  Hook.canStartGame e gameData address = true <->
  Hook.startGameReason e gameData address = "Ready to start"%string.
Proof.
  unfold Hook.canStartGame, Hook.startGameReason.
  destruct e as [[] [] [] []]; cbn; try (split; discriminate).
  destruct address; cbn; try (split; discriminate).
  destruct gameData as [gd|]; [|split; reflexivity].
  destruct (Hook.player1 gd =? Hook.ZeroAddress), (Hook.status gd =? Hook.GameStatus.Completed);
    cbn; split; reflexivity || discriminate.
Qed.

Section FrontEnd.
Context `{FhevmHost}.



(** What the hook takes the current player to have done, for each seat. *)
Lemma flag_player1 (w : World) (a : address) :
  a = player1 (game w) ->
  Hook.hasCurrentPlayerSubmitted (Hook.gameData (readGame w)) (Some a) =
    negb (GameStatus_eqb (status (game w)) Waiting).
Proof.
  intros ->. rewrite gameData_readGame.
  unfold Hook.hasCurrentPlayerSubmitted, Hook.isPlayer, Hook.isPlayer1, Hook.hasPlayer1Submitted.
  cbn. rewrite Z.eqb_refl. cbn. destruct (status (game w)); reflexivity.
Qed.

Lemma flag_player2 (w : World) (a : address) :
  a <> player1 (game w) -> a = player2 (game w) ->
  Hook.hasCurrentPlayerSubmitted (Hook.gameData (readGame w)) (Some a) =
    GameStatus_eqb (status (game w)) Completed.
Proof.
  intros Hn ->. rewrite gameData_readGame.
  unfold Hook.hasCurrentPlayerSubmitted, Hook.isPlayer, Hook.isPlayer1, Hook.isPlayer2,
    Hook.hasPlayer2Submitted.
  cbn. rewrite Z.eqb_refl.
  assert (E : (player1 (game w) =? player2 (game w)) = false)
    by (apply Z.eqb_neq; congruence).
  rewrite E. cbn. destruct (status (game w)); reflexivity.
Qed.



(** X13. What the hook infers about the current player's submission, in a
    reachable world: for player1 it says "submitted" exactly when the
    second player has joined, whatever slot A holds; for player2 exactly
    when the game is Completed, and then slot B is indeed set. *)
Theorem hasCurrentPlayerSubmitted_meaning (w : World) (a : address) :
  reachable w -> a <> address_0 ->
  (a = player1 (game w) ->
     (Hook.hasCurrentPlayerSubmitted (Hook.gameData (readGame w)) (Some a) = true <->
      player2 (game w) <> address_0)) /\
  (a = player2 (game w) ->
     (Hook.hasCurrentPlayerSubmitted (Hook.gameData (readGame w)) (Some a) = true <->
      status (game w) = Completed) /\
     (Hook.hasCurrentPlayerSubmitted (Hook.gameData (readGame w)) (Some a) = true ->
      slot_set (encryptedPlayer2Choice (game w)))).
Proof.
  intros Hr Ha. pose proof (reachable_Inv _ Hr) as HI. split.
  - intros E1. rewrite (flag_player1 w a E1), negb_true_iff, GameStatus_eqb_neq.
    split; intros Hx.
    + intros Hp. now apply Hx, (inv_seat2_empty _ HI).
    + intros Hst. now apply Hx, (inv_waiting _ HI).
  - intros E2.
    assert (Hp2 : player2 (game w) <> address_0) by congruence.
    assert (Hp1 : player1 (game w) <> address_0).
    { intros Hp. rewrite (inv_no_game _ HI Hp) in Hp2. now apply Hp2. }
    assert (N1 : a <> player1 (game w)).
    { pose proof (inv_distinct _ HI Hp1). congruence. }
    rewrite (flag_player2 w a N1 E2), GameStatus_eqb_eq.
    split; [reflexivity|]. intros Hst. now apply (inv_completed _ HI).
Qed.

(** X14. The verdict shown after decryption is the right one: in a
    reachable Completed world with choices a, b in {0,1,2} and non-zero
    result handles, once both results are decrypted the hook reports
    isDecrypted and the winner text is the tie text when a = b, player1's
    when a beats b, and player2's otherwise. *)
Theorem getWinnerText_correct (w : World) (results : bytes32 -> option bool) :
  reachable w -> status (game w) = Completed ->
  In (euint32.plaintext (encryptedPlayer1Choice (game w))) [0; 1; 2] ->
  In (euint32.plaintext (encryptedPlayer2Choice (game w))) [0; 1; 2] ->
  ebool.unwrap (encryptedP1Wins (game w)) <> Hook.ZeroHash ->
  ebool.unwrap (encryptedIsTie (game w)) <> Hook.ZeroHash ->
  decrypted_by w results ->
  Hook.isDecrypted (Hook.gameData (readGame w))
    (Hook.decryptedResults (Hook.gameData (readGame w)) (Some results)) = true /\
  Hook.getWinnerText (Hook.gameData (readGame w))
    (Hook.decryptedResults (Hook.gameData (readGame w)) (Some results)) =
  Some (if euint32.plaintext (encryptedPlayer1Choice (game w)) =?
           euint32.plaintext (encryptedPlayer2Choice (game w))
        then Hook.ItsATie
        else if ((euint32.plaintext (encryptedPlayer1Choice (game w)) - 
                  euint32.plaintext (encryptedPlayer2Choice (game w))) mod 3 =? 1)
        then Hook.Player1Wins (player1 (game w))
        else Hook.Player2Wins (player2 (game w))).
Proof.
  intros Hr Hst Ha Hb Hh1 Hh2 [Hd1 Hd2].
  destruct (invr_resolved _ (reachable_Inv_results _ Hr) Hst) as [Ew Et].
  rewrite gameData_readGame. unfold Hook.isDecrypted, Hook.getWinnerText, Hook.decryptedResults.
  cbn [Hook.encryptedP1Wins Hook.encryptedIsTie Hook.status Hook.player1 Hook.player2
       Hook.p1Wins Hook.isTie].
  apply Z.eqb_neq in Hh1, Hh2. rewrite Hh1, Hh2, Hd1, Hd2. cbn [negb Hook.isSome Hook.truthy].
  rewrite Hst. cbn [abi_GameStatus]. rewrite Ew, Et.
  destruct (winner_plaintexts (game w)) as [-> ->].
  cbn in Ha, Hb.
  destruct Ha as [<-|[<-|[<-|[]]]]; destruct Hb as [<-|[<-|[<-|[]]]]; split; reflexivity.
Qed.

(** X15. Before the game is Completed there is nothing to decrypt: in a
    reachable world that is not Completed the hook builds no decryption
    request, and whatever the decryption results hold, both decrypted
    results are undefined. *)
Theorem nothing_to_decrypt_before_completion
    (w : World) (e : Hook.Env) (results : bytes32 -> option bool) :
  reachable w -> status (game w) <> Completed ->
  Hook.requests e (Hook.gameData (readGame w)) = None /\
  Hook.decryptedResults (Hook.gameData (readGame w)) (Some results) =
    Some (Hook.mkDecryptedResults None None).
Proof.
  intros Hr Hst.
  destruct (invr_unresolved _ (reachable_Inv_results _ Hr) Hst) as [Ew Et].
  rewrite gameData_readGame. unfold Hook.requests, Hook.decryptedResults.
  cbn [Hook.encryptedP1Wins Hook.encryptedIsTie]. rewrite Ew, Et. cbn.
  destruct (Hook.hasContract e); split; reflexivity.
Qed.



End FrontEnd.

(** ** Witnesses on the test host *)

Lemma seats_invariant_witness :
  @reachable test_host world_joined /\
  (status (game world_joined) = Waiting <-> player2 (game world_joined) = address_0).
Proof.
  split; [exact reachable_world_joined|].
  exact (proj2 (@seats_invariant test_host world_joined reachable_world_joined)).
Defined.

Lemma results_invariant_witness :
  @reachable test_host world_one_choice /\
  status (game world_one_choice) <> Completed /\
  encryptedP1Wins (game world_one_choice) = ebool.wrap_0 /\
  encryptedIsTie (game world_one_choice) = ebool.wrap_0.
Proof.
  assert (Hst : status (game world_one_choice) <> Completed) by (vm_compute; discriminate).
  split; [exact reachable_world_one_choice|]. split; [exact Hst|].
  exact (proj1 (@results_invariant test_host world_one_choice reachable_world_one_choice) Hst).
Defined.

Lemma completed_is_final_witness :
  @reachable test_host world_completed /\
  status (game world_completed) = Completed /\
  @receipt test_host (alice, submit 1) world_completed <> None /\
  @transact test_host (alice, submit 1) world_completed = world_completed.
Proof.
  assert (Hst : status (game world_completed) = Completed) by (vm_compute; reflexivity).
  split; [exact reachable_world_completed|]. split; [exact Hst|].
  exact (@completed_is_final test_host world_completed (alice, submit 1)
           reachable_world_completed Hst).
Defined.

Lemma seats_are_kept_witness :
  @reachable test_host world_joined /\
  player2 (game world_joined) <> address_0 /\
  player2 (game (@transact test_host (carol, JoinGame) world_joined))
    = player2 (game world_joined).
Proof.
  assert (Hp : player2 (game world_joined) <> address_0) by (vm_compute; discriminate).
  split; [exact reachable_world_joined|]. split; [exact Hp|].
  exact (proj2 (@seats_are_kept test_host world_joined (carol, JoinGame)
                  reachable_world_joined) Hp).
Defined.

Lemma submission_order_irrelevant_witness :
  alice <> address_0 /\ bob <> address_0 /\ alice <> bob /\
  game (@run test_host [(alice, StartGame); (bob, JoinGame);
          (bob, SubmitEncryptedChoice 102 proof_ok);
          (alice, SubmitEncryptedChoice 100 proof_ok)] deployed)
    = game (@run test_host [(alice, StartGame); (bob, JoinGame);
          (alice, SubmitEncryptedChoice 100 proof_ok);
          (bob, SubmitEncryptedChoice 102 proof_ok)] deployed).
Proof.
  assert (Ha : alice <> address_0) by (vm_compute; discriminate).
  assert (Hb : bob <> address_0) by (vm_compute; discriminate).
  assert (Hab : alice <> bob) by (vm_compute; discriminate).
  split; [exact Ha|]. split; [exact Hb|]. split; [exact Hab|].
  refine (proj1 (proj2 (@submission_order_irrelevant test_host alice bob 100 102
            proof_ok proof_ok (euint32.mk 100 0) (euint32.mk 102 2)
            Ha Hb Hab eq_refl eq_refl _ _))); vm_compute; discriminate.
Defined.

Lemma stored_ciphertexts_are_allowed_witness :
  @reachable test_host world_one_choice /\
  slot_set (encryptedPlayer1Choice (game world_one_choice)) /\
  In (euint32.unwrap (encryptedPlayer1Choice (game world_one_choice)))
     (allowedThis world_one_choice).
Proof.
  assert (Hs : slot_set (encryptedPlayer1Choice (game world_one_choice)))
    by (vm_compute; discriminate).
  split; [exact reachable_world_one_choice|]. split; [exact Hs|].
  exact (proj1 (@stored_ciphertexts_are_allowed test_host world_one_choice
                  reachable_world_one_choice) Hs).
Defined.

Lemma events_name_the_players_witness :
  @reachable test_host world_completed /\
  (forall a, In (EncryptedChoiceSubmitted a) (events world_completed) ->
     a = player1 (game world_completed) \/ a = player2 (game world_completed)).
Proof.
  split; [exact reachable_world_completed|].
  exact (proj1 (proj2 (proj2 (@events_name_the_players test_host world_completed
                                reachable_world_completed)))).
Defined.



Lemma hasCurrentPlayerSubmitted_meaning_witness :
  @reachable test_host world_joined /\ alice <> address_0 /\
  alice = player1 (game world_joined) /\
  (Hook.hasCurrentPlayerSubmitted (Hook.gameData (readGame world_joined)) (Some alice) = true <->
   player2 (game world_joined) <> address_0).
Proof.
  assert (Ha : alice <> address_0) by (vm_compute; discriminate).
  assert (E : alice = player1 (game world_joined)) by (vm_compute; reflexivity).
  split; [exact reachable_world_joined|]. split; [exact Ha|]. split; [exact E|].
  exact (proj1 (@hasCurrentPlayerSubmitted_meaning test_host world_joined alice
                  reachable_world_joined Ha) E).
Defined.

Lemma getWinnerText_correct_witness :
  @reachable test_host world_completed /\
  status (game world_completed) = Completed /\
  decrypted_by world_completed
    (fun h => if h =? ebool.unwrap (encryptedIsTie (game world_completed))
              then Some false else Some true) /\
  Hook.isDecrypted (Hook.gameData (readGame world_completed))
    (Hook.decryptedResults (Hook.gameData (readGame world_completed))
       (Some (fun h => if h =? ebool.unwrap (encryptedIsTie (game world_completed))
                       then Some false else Some true))) = true.
Proof.
  assert (Hst : status (game world_completed) = Completed) by (vm_compute; reflexivity).
  assert (Hd : decrypted_by world_completed
            (fun h => if h =? ebool.unwrap (encryptedIsTie (game world_completed))
                      then Some false else Some true))
    by (vm_compute; split; reflexivity).
  split; [exact reachable_world_completed|]. split; [exact Hst|]. split; [exact Hd|].
  refine (proj1 (@getWinnerText_correct test_host world_completed _
                   reachable_world_completed Hst _ _ _ _ Hd));
    vm_compute; tauto || discriminate.
Defined.

Lemma nothing_to_decrypt_before_completion_witness :
  @reachable test_host world_joined /\
  status (game world_joined) <> Completed /\
  Hook.requests ready (Hook.gameData (readGame world_joined)) = None.
Proof.
  assert (Hst : status (game world_joined) <> Completed) by (vm_compute; discriminate).
  split; [exact reachable_world_joined|]. split; [exact Hst|].
  exact (proj1 (@nothing_to_decrypt_before_completion test_host world_joined ready
                  (fun _ => None) reachable_world_joined Hst)).
Defined.

